(** * AIConsultation: the multimodal consultation component

    A shallow embedding of the React component [AIConsultation]
    (frontend/src/components/AIConsultation.js): its state hooks and refs,
    the browser objects it drives (microphone streams, media recorders,
    object URLs, the consultation endpoint) and its event handlers, followed
    by the properties of the capture-and-exchange pipeline.

    The component is embedded as a transition system: every user action,
    settled promise and recorder event is one [Event], handled to completion
    by [step].  An async handler is cut at its [await] into the part that
    runs at once and the part that resumes when the promise settles.
    [handleTextToSpeech], [playResponseAudio] and the image preview take no
    part in the pipeline's state and are left out, and with them the object
    URLs they create. *)

From Stdlib Require Import NArith Ascii String Bool Lia ZifyNat ZifyN.
From Stdlib.Strings Require Import Byte.
From stdpp Require Import base option list.

Local Open Scope string_scope.
Local Open Scope list_scope.

(** ** JavaScript values used by the component *)

Module Js.

(** [!!s] for a string: only the empty string is falsy. *)
Definition truthy_string (s : string) : bool :=
  match s with
  | EmptyString => false
  | String _ _ => true
  end.

(** Truthiness of a property that is a string or [undefined]. *)
Definition truthy (v : option string) : bool :=
  match v with
  | Some s => truthy_string s
  | None => false
  end.

(** Truthiness of an object reference or [null]. *)
Definition truthy_ref {A : Type} (v : option A) : bool :=
  match v with
  | Some _ => true
  | None => false
  end.

(** [v || d] where [v] is a string or [undefined] and [d] a string. *)
Definition or_else (v : option string) (d : string) : string :=
  match v with
  | Some s => if truthy_string s then s else d
  | None => d
  end.

End Js.

(** ** Binary data: Blob, File and the base64 decoder [atob] *)

Record Blob := mkBlob {
  blob_bytes : list byte;
  blob_type : string
}.

Record File := mkFile {
  file_bytes : list byte;
  file_name : string;
  file_type : string
}.

(** The parts a Blob or File is built from: typed arrays and other blobs. *)
Inductive BlobPart :=
| PartBytes (bs : list byte)
| PartBlob (b : Blob).

Definition part_bytes (p : BlobPart) : list byte :=
  match p with
  | PartBytes bs => bs
  | PartBlob b => blob_bytes b
  end.

Module Base64.

(** The browser's [atob], after the forgiving-base64 decode of the WHATWG
    Infra standard.  Strings are sequences of 8-bit characters; a character
    above U+00FF is outside the base64 alphabet and makes [atob] throw, as
    every other character outside the alphabet does. *)

Definition is_whitespace (c : ascii) : bool :=
  let n := N_of_ascii c in
  (n =? 9)%N || (n =? 10)%N || (n =? 12)%N || (n =? 13)%N || (n =? 32)%N.

Definition sextet (c : ascii) : option N :=
  let n := N_of_ascii c in
  if (65 <=? n)%N && (n <=? 90)%N then Some (n - 65)%N
  else if (97 <=? n)%N && (n <=? 122)%N then Some (n - 71)%N
  else if (48 <=? n)%N && (n <=? 57)%N then Some (n + 4)%N
  else if (n =? 43)%N then Some 62%N
  else if (n =? 47)%N then Some 63%N
  else None.

Definition is_pad (c : ascii) : bool := (N_of_ascii c =? 61)%N.

(** Step 2: when the length is a multiple of four, drop one or two
    trailing [=]. *)
Definition strip_padding (l : list ascii) : list ascii :=
  if (length l mod 4 =? 0)%nat then
    match rev l with
    | p :: q :: r =>
        if is_pad p then (if is_pad q then rev r else rev (q :: r)) else l
    | _ => l
    end
  else l.

Fixpoint sextets (l : list ascii) : option (list N) :=
  match l with
  | [] => Some []
  | c :: r =>
      match sextet c, sextets r with
      | Some v, Some vs => Some (v :: vs)
      | _, _ => None
      end
  end.

(** 24-bit groups become three bytes; a rest of 12 bits gives one byte and
    a rest of 18 bits gives two. *)
Fixpoint octets (l : list N) : list N :=
  match l with
  | a :: b :: c :: d :: r =>
      (a * 4 + b / 16)%N :: ((b mod 16) * 16 + c / 4)%N
        :: ((c mod 4) * 64 + d)%N :: octets r
  | [a; b; c] => [(a * 4 + b / 16)%N; ((b mod 16) * 16 + c / 4)%N]
  | [a; b] => [(a * 4 + b / 16)%N]
  | _ => []
  end.

(** [None] is the [InvalidCharacterError] exception. *)
Definition atob (s : string) : option string :=
  let data := strip_padding (filter (fun c => negb (is_whitespace c)) (list_ascii_of_string s)) in
  if (length data mod 4 =? 1)%nat then None
  else
    match sextets data with
    | Some vs => Some (string_of_list_ascii (map ascii_of_N (octets vs)))
    | None => None
    end.

(** [Uint8Array.from(str, c => c.charCodeAt(0))] *)
Definition char_codes (s : string) : list byte :=
  map byte_of_ascii (list_ascii_of_string s).

End Base64.

(** ** Exceptions and the consultation endpoint's messages *)

(** The body of an error response, as far as the component reads it:
    [data.error]. *)
Record ErrorBody := mkErrorBody {
  body_error : option string
}.

Record Response := mkResponse {
  resp_status : nat;
  resp_data : option ErrorBody
}.

(** A thrown value: a DOMException, a RangeError or the error axios rejects
    with; only the latter may carry a [response]. *)
Record Exn := mkExn {
  exn_name : string;
  exn_message : string;
  exn_response : option Response
}.

(** [response.data] of a successful consultation. *)
Record ConsultationReply := mkReply {
  data_transcription : option string;
  data_analysis : option string;
  data_response_audio : option string
}.

(** A multipart body: the appended fields in order. *)
Definition FormData := list (string * File).

(** ** The browser *)

Inductive RecordingState := Inactive | Recording.

(** A MediaRecorder: the stream it records, its [state], and whether the task
    that fires its [stop] event is queued. *)
Record MediaRecorder := mkRecorder {
  rec_stream : nat;
  rec_state : RecordingState;
  rec_stop_queued : bool
}.

(** A MediaStream: for each of its tracks, how often [track.stop()] has been
    called on it.  A track is live as long as the count is zero. *)
Abbreviation MediaStream := (list nat).

(** Where browsers differ or may refuse:
    - building the byte sequence of a Blob or File from its parts ([None]:
      the constructor throws);
    - [stop()] on a recorder that is already inactive: the standard for
      MediaRecorder now makes it do nothing, earlier versions of it and of
      the browsers threw an [InvalidStateError]. *)
Record Host := mkHost {
  process_blob_parts : list BlobPart -> option (list byte);
  stop_inactive_throws : bool
}.

(** The File API and the current recording standard: the parts concatenated
    in order, and [stop()] idempotent. *)
Definition standard_host : Host :=
  {| process_blob_parts := fun parts => Some (concat (map part_bytes parts));
     stop_inactive_throws := false |}.

(** A host that cannot allocate a blob of more than [limit] bytes. *)
Definition bounded_host (limit : nat) : Host :=
  {| process_blob_parts := fun parts =>
       let bs := concat (map part_bytes parts) in
       if (length bs <=? limit)%nat then Some bs else None;
     stop_inactive_throws := false |}.

(** A host of the earlier standard. *)
Definition legacy_host : Host :=
  {| process_blob_parts := fun parts => Some (concat (map part_bytes parts));
     stop_inactive_throws := true |}.

(** ** The component's state *)

Record World := mkWorld {
  (* useState *)
  audioFile : option File;
  imageFile : option File;
  transcription : option string;
  imageAnalysis : option string;
  responseAudio : option nat;
  loading : bool;
  error : option string;
  isRecording : bool;
  (* useRef *)
  mediaRecorderRef : option nat;
  audioChunksRef : list Blob;
  (* the browser: streams and recorders by identity, the object URLs made
     for response audio and still live (URL [k] is the [k]-th entry; the
     component never revokes one), the strings [atob] was called with, the
     POST requests sent to the consultation endpoint, and the promises still
     pending *)
  streams : list MediaStream;
  recorders : list MediaRecorder;
  objectURLs : list Blob;
  atobCalls : list string;
  requests : list FormData;
  pendingMic : nat;
  pendingPosts : nat
}.

Definition initial_world : World :=
  {| audioFile := None; imageFile := None;
     transcription := Some ""; imageAnalysis := Some "";
     responseAudio := None; loading := false; error := None;
     isRecording := false;
     mediaRecorderRef := None; audioChunksRef := [];
     streams := []; recorders := []; objectURLs := []; atobCalls := [];
     requests := [];
     pendingMic := 0; pendingPosts := 0 |}.

(** Field updates. *)

Definition set_audioFile (v : option File) (w : World) : World :=
  mkWorld v (imageFile w) (transcription w) (imageAnalysis w) (responseAudio w)
    (loading w) (error w) (isRecording w) (mediaRecorderRef w) (audioChunksRef w)
    (streams w) (recorders w) (objectURLs w) (atobCalls w)
    (requests w) (pendingMic w) (pendingPosts w).

Definition set_imageFile (v : option File) (w : World) : World :=
  mkWorld (audioFile w) v (transcription w) (imageAnalysis w) (responseAudio w)
    (loading w) (error w) (isRecording w) (mediaRecorderRef w) (audioChunksRef w)
    (streams w) (recorders w) (objectURLs w) (atobCalls w)
    (requests w) (pendingMic w) (pendingPosts w).

Definition set_transcription (v : option string) (w : World) : World :=
  mkWorld (audioFile w) (imageFile w) v (imageAnalysis w) (responseAudio w)
    (loading w) (error w) (isRecording w) (mediaRecorderRef w) (audioChunksRef w)
    (streams w) (recorders w) (objectURLs w) (atobCalls w)
    (requests w) (pendingMic w) (pendingPosts w).

Definition set_imageAnalysis (v : option string) (w : World) : World :=
  mkWorld (audioFile w) (imageFile w) (transcription w) v (responseAudio w)
    (loading w) (error w) (isRecording w) (mediaRecorderRef w) (audioChunksRef w)
    (streams w) (recorders w) (objectURLs w) (atobCalls w)
    (requests w) (pendingMic w) (pendingPosts w).

Definition set_responseAudio (v : option nat) (w : World) : World :=
  mkWorld (audioFile w) (imageFile w) (transcription w) (imageAnalysis w) v
    (loading w) (error w) (isRecording w) (mediaRecorderRef w) (audioChunksRef w)
    (streams w) (recorders w) (objectURLs w) (atobCalls w)
    (requests w) (pendingMic w) (pendingPosts w).

Definition set_loading (v : bool) (w : World) : World :=
  mkWorld (audioFile w) (imageFile w) (transcription w) (imageAnalysis w) (responseAudio w)
    v (error w) (isRecording w) (mediaRecorderRef w) (audioChunksRef w)
    (streams w) (recorders w) (objectURLs w) (atobCalls w)
    (requests w) (pendingMic w) (pendingPosts w).

Definition set_error (v : option string) (w : World) : World :=
  mkWorld (audioFile w) (imageFile w) (transcription w) (imageAnalysis w) (responseAudio w)
    (loading w) v (isRecording w) (mediaRecorderRef w) (audioChunksRef w)
    (streams w) (recorders w) (objectURLs w) (atobCalls w)
    (requests w) (pendingMic w) (pendingPosts w).

Definition set_isRecording (v : bool) (w : World) : World :=
  mkWorld (audioFile w) (imageFile w) (transcription w) (imageAnalysis w) (responseAudio w)
    (loading w) (error w) v (mediaRecorderRef w) (audioChunksRef w)
    (streams w) (recorders w) (objectURLs w) (atobCalls w)
    (requests w) (pendingMic w) (pendingPosts w).

Definition set_mediaRecorderRef (v : option nat) (w : World) : World :=
  mkWorld (audioFile w) (imageFile w) (transcription w) (imageAnalysis w) (responseAudio w)
    (loading w) (error w) (isRecording w) v (audioChunksRef w)
    (streams w) (recorders w) (objectURLs w) (atobCalls w)
    (requests w) (pendingMic w) (pendingPosts w).

Definition set_audioChunksRef (v : list Blob) (w : World) : World :=
  mkWorld (audioFile w) (imageFile w) (transcription w) (imageAnalysis w) (responseAudio w)
    (loading w) (error w) (isRecording w) (mediaRecorderRef w) v
    (streams w) (recorders w) (objectURLs w) (atobCalls w)
    (requests w) (pendingMic w) (pendingPosts w).

Definition set_streams (v : list MediaStream) (w : World) : World :=
  mkWorld (audioFile w) (imageFile w) (transcription w) (imageAnalysis w) (responseAudio w)
    (loading w) (error w) (isRecording w) (mediaRecorderRef w) (audioChunksRef w)
    v (recorders w) (objectURLs w) (atobCalls w)
    (requests w) (pendingMic w) (pendingPosts w).

Definition set_recorders (v : list MediaRecorder) (w : World) : World :=
  mkWorld (audioFile w) (imageFile w) (transcription w) (imageAnalysis w) (responseAudio w)
    (loading w) (error w) (isRecording w) (mediaRecorderRef w) (audioChunksRef w)
    (streams w) v (objectURLs w) (atobCalls w)
    (requests w) (pendingMic w) (pendingPosts w).

Definition set_objectURLs (v : list Blob) (w : World) : World :=
  mkWorld (audioFile w) (imageFile w) (transcription w) (imageAnalysis w) (responseAudio w)
    (loading w) (error w) (isRecording w) (mediaRecorderRef w) (audioChunksRef w)
    (streams w) (recorders w) v (atobCalls w)
    (requests w) (pendingMic w) (pendingPosts w).

Definition set_atobCalls (v : list string) (w : World) : World :=
  mkWorld (audioFile w) (imageFile w) (transcription w) (imageAnalysis w) (responseAudio w)
    (loading w) (error w) (isRecording w) (mediaRecorderRef w) (audioChunksRef w)
    (streams w) (recorders w) (objectURLs w) v
    (requests w) (pendingMic w) (pendingPosts w).

Definition set_requests (v : list FormData) (w : World) : World :=
  mkWorld (audioFile w) (imageFile w) (transcription w) (imageAnalysis w) (responseAudio w)
    (loading w) (error w) (isRecording w) (mediaRecorderRef w) (audioChunksRef w)
    (streams w) (recorders w) (objectURLs w) (atobCalls w)
    v (pendingMic w) (pendingPosts w).

Definition set_pendingMic (v : nat) (w : World) : World :=
  mkWorld (audioFile w) (imageFile w) (transcription w) (imageAnalysis w) (responseAudio w)
    (loading w) (error w) (isRecording w) (mediaRecorderRef w) (audioChunksRef w)
    (streams w) (recorders w) (objectURLs w) (atobCalls w)
    (requests w) v (pendingPosts w).

Definition set_pendingPosts (v : nat) (w : World) : World :=
  mkWorld (audioFile w) (imageFile w) (transcription w) (imageAnalysis w) (responseAudio w)
    (loading w) (error w) (isRecording w) (mediaRecorderRef w) (audioChunksRef w)
    (streams w) (recorders w) (objectURLs w) (atobCalls w)
    (requests w) (pendingMic w) v.

(** ** Handlers as computations over the world

    A handler reads and updates the world and either returns or throws.
    What it changed before throwing stays changed. *)

Inductive Outcome (A : Type) :=
| Return (a : A)
| Throw (e : Exn).
Arguments Return {A} a.
Arguments Throw {A} e.

Definition Handler (A : Type) : Type := World -> Outcome A * World.

Definition ret {A : Type} (a : A) : Handler A := fun w => (Return a, w).

Definition throw {A : Type} (e : Exn) : Handler A := fun w => (Throw e, w).

Definition bind {A B : Type} (m : Handler A) (k : A -> Handler B) : Handler B :=
  fun w =>
    match m w with
    | (Return a, w') => k a w'
    | (Throw e, w') => (Throw e, w')
    end.

Definition get {A : Type} (f : World -> A) : Handler A := fun w => (Return (f w), w).

Definition update (f : World -> World) : Handler unit := fun w => (Return tt, f w).

(** [try { m } catch (err) { h err }] *)
Definition try_catch {A : Type} (m : Handler A) (h : Exn -> Handler A) : Handler A :=
  fun w =>
    match m w with
    | (Return a, w') => (Return a, w')
    | (Throw e, w') => h e w'
    end.

(** [try { m } finally { f }] *)
Definition try_finally {A : Type} (m : Handler A) (f : Handler unit) : Handler A :=
  fun w =>
    match m w with
    | (r, w') =>
        match f w' with
        | (Return _, w'') => (r, w'')
        | (Throw e, w'') => (Throw e, w'')
        end
    end.

(** [if (c) { m }] *)
Definition when (c : bool) (m : Handler unit) : Handler unit :=
  if c then m else ret tt.

(** [await p] once the promise has settled with [r]. *)
Definition settled {A : Type} (r : Outcome A) : Handler A := fun w => (r, w).

Declare Scope handler_scope.
Delimit Scope handler_scope with handler.
Notation "x <- m ;; k" := (bind m (fun x => k))
  (at level 100, m at next level, k at level 200, right associativity) : handler_scope.
Notation "m ;; k" := (bind m (fun _ => k))
  (at level 100, k at level 200, right associativity) : handler_scope.
Local Open Scope handler_scope.

(** An event handler run by the browser: an exception that escapes it is
    reported and the event loop goes on. *)
Definition dispatch (m : Handler unit) (w : World) : World := snd (m w).

(** ** Browser operations *)

Section Component.

Variable host : Host.

(** [new Blob(parts, { type })] *)
Definition new_Blob (parts : list BlobPart) (type : string) : Handler Blob :=
  match process_blob_parts host parts with
  | Some bs => ret (mkBlob bs type)
  | None => throw (mkExn "RangeError" "Array buffer allocation failed" None)
  end.

(** [new File(parts, name, { type })] *)
Definition new_File (parts : list BlobPart) (name type : string) : Handler File :=
  match process_blob_parts host parts with
  | Some bs => ret (mkFile bs name type)
  | None => throw (mkExn "RangeError" "Array buffer allocation failed" None)
  end.

(** [String(v)] of a string or [undefined]. *)
Definition to_string (v : option string) : string :=
  match v with
  | Some s => s
  | None => "undefined"
  end.

Definition invalid_character_error : Exn :=
  mkExn "InvalidCharacterError" "The string to be decoded is not correctly encoded." None.

(** [atob(v)]; the call is recorded in [atobCalls]. *)
Definition atob (v : option string) : Handler string :=
  update (fun w => set_atobCalls (atobCalls w ++ [to_string v]) w) ;;
  match Base64.atob (to_string v) with
  | Some bin => ret bin
  | None => throw invalid_character_error
  end.

(** [URL.createObjectURL(blob)]: a fresh URL that keeps [blob] alive. *)
Definition createObjectURL (b : Blob) : Handler nat :=
  fun w => (Return (length (objectURLs w)), set_objectURLs (objectURLs w ++ [b]) w).

(** [navigator.mediaDevices.getUserMedia({ audio: true })]: one more
    permission request is pending. *)
Definition getUserMedia : Handler unit :=
  update (fun w => set_pendingMic (S (pendingMic w)) w).

(** The browser opens a stream of [tracks] live tracks. *)
Definition open_stream (tracks : nat) : Handler nat :=
  fun w => (Return (length (streams w)), set_streams (streams w ++ [replicate tracks 0]) w).

(** [new MediaRecorder(stream)] *)
Definition new_MediaRecorder (stream : nat) : Handler nat :=
  fun w => (Return (length (recorders w)),
            set_recorders (recorders w ++ [mkRecorder stream Inactive false]) w).

(** [recorder.start()]: throws unless the recorder is inactive. *)
Definition recorder_start (r : nat) : Handler unit :=
  fun w =>
    match recorders w !! r with
    | Some (mkRecorder s Inactive q) =>
        (Return tt, set_recorders (<[r := mkRecorder s Recording q]> (recorders w)) w)
    | _ => (Throw (mkExn "InvalidStateError" "The MediaRecorder's state is not 'inactive'." None), w)
    end.

Definition invalid_state_error : Exn :=
  mkExn "InvalidStateError" "The MediaRecorder's state is 'inactive'." None.

(** [recorder.stop()]: a recording recorder becomes inactive and a task is
    queued that fires its [stop] event; on an inactive recorder the call
    does nothing or throws, as the host has it. *)
Definition recorder_stop (r : nat) : Handler unit :=
  fun w =>
    match recorders w !! r with
    | Some (mkRecorder s Recording _) =>
        (Return tt, set_recorders (<[r := mkRecorder s Inactive true]> (recorders w)) w)
    | _ =>
        if stop_inactive_throws host then (Throw invalid_state_error, w)
        else (Return tt, w)
    end.

(** [stream.getTracks().forEach(track => track.stop())]: one more [stop()]
    on every track of the stream. *)
Definition stop_tracks (stream : nat) : Handler unit :=
  update (fun w => set_streams (alter (map S) stream (streams w)) w).

(** [axios.post(url, formData, ...)]: the request leaves, its promise is
    pending. *)
Definition axios_post (formData : FormData) : Handler unit :=
  update (fun w => set_pendingPosts (S (pendingPosts w))
                     (set_requests (requests w ++ [formData]) w)).

(** ** The component's handlers *)

(** [startRecording], up to its [await]. *)
Definition startRecording : Handler unit := getUserMedia.

(** [ondataavailable] *)
Definition ondataavailable (data : Blob) : Handler unit :=
  update (fun w => set_audioChunksRef (audioChunksRef w ++ [data]) w).

(** [onstop], a closure over the [stream] of its recording. *)
Definition onstop (stream : nat) : Handler unit :=
  chunks <- get audioChunksRef ;;
  audioBlob <- new_Blob (map PartBlob chunks) "audio/wav" ;;
  audioFile <- new_File [PartBlob audioBlob] "recording.wav" "audio/wav" ;;
  update (set_audioFile (Some audioFile)) ;;
  stop_tracks stream.

(** [startRecording] from its [await] on: [granted] is the stream the
    promise resolved with, or the error it rejected with. *)
Definition startRecording_resume (granted : Outcome nat) : Handler unit :=
  try_catch
    (stream <- settled granted ;;
     recorder <- new_MediaRecorder stream ;;
     update (set_mediaRecorderRef (Some recorder)) ;;
     update (set_audioChunksRef []) ;;
     recorder_start recorder ;;
     update (set_isRecording true))
    (fun err =>
       update (set_error (Some (String.append "Error accessing microphone: " (exn_message err))))).

Definition stopRecording : Handler unit :=
  current <- get mediaRecorderRef ;;
  match current with
  | Some recorder =>
      recorder_stop recorder ;;
      update (set_isRecording false)
  | None => ret tt
  end.

(** [file] is [event.target.files[0]]. *)
Definition handleImageUpload (file : option File) : Handler unit :=
  when (Js.truthy_ref file) (update (set_imageFile file)).

Definition handleAudioUpload (file : option File) : Handler unit :=
  when (Js.truthy_ref file) (update (set_audioFile file)).

Definition form_part (name : string) (file : option File) : FormData :=
  match file with
  | Some f => [(name, f)]
  | None => []
  end.

Definition missing_input_message : string :=
  "Please provide either an audio recording or an image for consultation.".

Definition failure_message : string := "Failed to process consultation".

(** [handleFullConsultation], up to its [await]. *)
Definition handleFullConsultation : Handler unit :=
  audio <- get audioFile ;;
  image <- get imageFile ;;
  if negb (Js.truthy_ref audio) && negb (Js.truthy_ref image) then
    update (set_error (Some missing_input_message))
  else
    update (set_loading true) ;;
    update (set_error None) ;;
    axios_post (form_part "audio" audio ++ form_part "image" image).

(** [err.response?.data?.error] *)
Definition response_data_error (err : Exn) : option string :=
  match exn_response err with
  | Some response =>
      match resp_data response with
      | Some data => body_error data
      | None => None
      end
  | None => None
  end.

(** [handleFullConsultation] from its [await] on: [response] is the reply
    the request resolved with, or the error it rejected with. *)
Definition handleFullConsultation_resume (response : Outcome ConsultationReply)
  : Handler unit :=
  try_finally
    (try_catch
       (data <- settled response ;;
        update (set_transcription (data_transcription data)) ;;
        update (set_imageAnalysis (data_analysis data)) ;;
        when (Js.truthy (data_response_audio data))
          (bin <- atob (data_response_audio data) ;;
           audioBlob <- new_Blob [PartBytes (Base64.char_codes bin)] "audio/mpeg" ;;
           audioUrl <- createObjectURL audioBlob ;;
           update (set_responseAudio (Some audioUrl))))
       (fun err =>
          update (set_error (Some (Js.or_else (response_data_error err) failure_message)))))
    (update (set_loading false)).

(** ** What is rendered *)

(** [disabled] of the consult button. *)
Definition consult_disabled (w : World) : bool :=
  loading w || (negb (Js.truthy_ref (audioFile w)) && negb (Js.truthy_ref (imageFile w))).

(** The results block is rendered. *)
Definition results_shown (w : World) : bool :=
  Js.truthy (transcription w) || Js.truthy (imageAnalysis w).

(** The audio element and its play button are rendered. *)
Definition playback_offered (w : World) : bool :=
  results_shown w && Js.truthy_ref (responseAudio w).

(** ** The event loop *)

Inductive Event :=
| ClickRecord
| MicGranted (tracks : nat)
| MicDenied (err : Exn)
| DataAvailable (recorder : nat) (data : Blob)
| RecorderStopped (recorder : nat)
| AudioUpload (file : option File)
| ImageUpload (file : option File)
| ClickConsult
| PostResolved (data : ConsultationReply)
| PostRejected (err : Exn).

(** One event, handled to completion.  A disabled control ignores its
    event; a settlement or recorder event with nothing waiting for it does
    not occur and leaves the world as it is. *)
Definition step (w : World) (e : Event) : World :=
  match e with
  | ClickRecord =>
      if loading w then w
      else if isRecording w then dispatch stopRecording w
      else dispatch startRecording w
  | MicGranted tracks =>
      match pendingMic w with
      | O => w
      | S n =>
          dispatch (stream <- open_stream tracks ;; startRecording_resume (Return stream))
            (set_pendingMic n w)
      end
  | MicDenied err =>
      match pendingMic w with
      | O => w
      | S n => dispatch (startRecording_resume (Throw err)) (set_pendingMic n w)
      end
  | DataAvailable r data =>
      match recorders w !! r with
      | Some (mkRecorder _ Recording _) | Some (mkRecorder _ Inactive true) =>
          dispatch (ondataavailable data) w
      | _ => w
      end
  | RecorderStopped r =>
      match recorders w !! r with
      | Some (mkRecorder s Inactive true) =>
          dispatch (onstop s)
            (set_recorders (<[r := mkRecorder s Inactive false]> (recorders w)) w)
      | _ => w
      end
  | AudioUpload file =>
      if loading w then w else dispatch (handleAudioUpload file) w
  | ImageUpload file =>
      if loading w then w else dispatch (handleImageUpload file) w
  | ClickConsult =>
      if consult_disabled w then w else dispatch handleFullConsultation w
  | PostResolved data =>
      match pendingPosts w with
      | O => w
      | S n => dispatch (handleFullConsultation_resume (Return data)) (set_pendingPosts n w)
      end
  | PostRejected err =>
      match pendingPosts w with
      | O => w
      | S n => dispatch (handleFullConsultation_resume (Throw err)) (set_pendingPosts n w)
      end
  end.

Definition run (w : World) (events : list Event) : World :=
  fold_left step events w.

End Component.

(** * The vocabulary of the properties *)

(** ** Sample inputs and worlds *)

Definition rash_png : File :=
  mkFile [x89; x50; x4e; x47]%byte "rash.png" "image/png".

Definition chunk_a : Blob := mkBlob [x01; x02]%byte "audio/webm".

Definition chunk_b : Blob := mkBlob [x03]%byte "audio/webm".

(** What axios rejects with when the endpoint answers [status] with the body
    [{ error: message }]. *)
Definition service_error (status : nat) (message : string) : Exn :=
  mkExn "AxiosError" "Request failed" (Some (mkResponse status (Some (mkErrorBody (Some message))))).

(** What axios rejects with when no response arrives. *)
Definition network_error : Exn :=
  mkExn "AxiosError" "Network Error" None.

(** A staged image, nothing sent yet. *)
Definition ready_world : World :=
  run standard_host initial_world [ImageUpload (Some rash_png)].

(** An image is staged and one consultation request is outstanding. *)
Definition submitting_world : World :=
  run standard_host initial_world [ImageUpload (Some rash_png); ClickConsult].

(** Two consultations in a row whose replies both carry audio. *)
Definition two_replies_with_audio : World :=
  run standard_host initial_world
    [ImageUpload (Some rash_png); ClickConsult;
     PostResolved (mkReply None (Some "Possible contact dermatitis") (Some "QUJD"));
     ClickConsult;
     PostResolved (mkReply None (Some "Possible contact dermatitis") (Some "REVG"))].

(** A first consultation whose reply carried audio and a second one whose
    reply has [response_audio: ""]. *)
Definition second_reply_without_audio : World :=
  run standard_host initial_world
    [ImageUpload (Some rash_png); ClickConsult;
     PostResolved (mkReply None (Some "Possible contact dermatitis") (Some "QUJD"));
     ClickConsult;
     PostResolved (mkReply (Some "I have a headache") None (Some ""))].

(** A permission request is pending. *)
Definition requesting_world : World :=
  run standard_host initial_world [ClickRecord].

(** One complete recording of two chunks. *)
Definition recorded_world : World :=
  run standard_host initial_world
    [ClickRecord; MicGranted 1; DataAvailable 0 chunk_a; ClickRecord;
     DataAvailable 0 chunk_b; RecorderStopped 0].

(** ** Submission *)

Definition reachable (host : Host) (w : World) : Prop :=
  exists events, w = run host initial_world events.

(** [loading] is true exactly as long as one request is outstanding. *)
Definition posts_match_loading (w : World) : Prop :=
  pendingPosts w = if loading w then 1 else 0.

(** The body [handleFullConsultation] posts. *)
Definition staged_form (w : World) : FormData :=
  form_part "audio" (audioFile w) ++ form_part "image" (imageFile w).

(** ** Recording *)

(** The component is recording: its [isRecording] flag is set, or the
    recorder it refers to is in the recording state. *)
Definition capture_recording (w : World) : bool :=
  isRecording w ||
  match mediaRecorderRef w with
  | Some r =>
      match recorders w !! r with
      | Some (mkRecorder _ Recording _) => true
      | _ => false
      end
  | None => false
  end.

(** The host builds the bytes of a Blob or File as the File API says. *)
Definition file_api (host : Host) : Prop :=
  forall parts, process_blob_parts host parts = Some (concat (map part_bytes parts)).

(** The events of one session on recorder [r]: permission is granted, chunks
    arrive, the stop button is clicked, the chunks flushed by [stop()] arrive,
    and the recorder's [stop] event is delivered. *)
Definition session_events (r tracks : nat) (before after : list Blob) : list Event :=
  MicGranted tracks :: map (DataAvailable r) before
    ++ ClickRecord :: map (DataAvailable r) after ++ [RecorderStopped r].

(** The world while the session opened from [w] is under way: its stream of
    [tracks] live tracks and its recorder are the newest ones, the recorder
    is the current one, [chunks] have arrived, and [n] permission requests
    are still pending. *)
Definition session_world (w : World) (n tracks : nat) (chunks : list Blob)
    (state : RecordingState) (queued flag : bool) : World :=
  mkWorld (audioFile w) (imageFile w) (transcription w) (imageAnalysis w) (responseAudio w)
    (loading w) (error w) flag (Some (length (recorders w))) chunks
    (streams w ++ [replicate tracks 0])
    (recorders w ++ [mkRecorder (length (streams w)) state queued])
    (objectURLs w) (atobCalls w)
    (requests w) n (pendingPosts w).

(** The session of [recorded_world] on a host that cannot allocate the three
    bytes of the clip. *)
Definition failed_finalization_world : World :=
  run (bounded_host 2) requesting_world (session_events 0 1 [chunk_a] [chunk_b]).

(** How one event can change the streams and the recorders: not at all; a
    recording recorder is stopped; a stream and its recorder are opened; a
    stopped recorder's [stop] event is delivered, with or without the
    release of its stream. *)
Inductive media_change (w w' : World) : Prop :=
| media_same :
    streams w' = streams w -> recorders w' = recorders w -> media_change w w'
| media_stop (c s : nat) (q : bool) :
    recorders w !! c = Some (mkRecorder s Recording q) ->
    streams w' = streams w ->
    recorders w' = <[c := mkRecorder s Inactive true]> (recorders w) ->
    media_change w w'
| media_open (tracks : nat) :
    streams w' = streams w ++ [replicate tracks 0] ->
    recorders w' = recorders w ++ [mkRecorder (length (streams w)) Recording false] ->
    media_change w w'
| media_stopped (r s : nat) :
    recorders w !! r = Some (mkRecorder s Inactive true) ->
    recorders w' = <[r := mkRecorder s Inactive false]> (recorders w) ->
    streams w' = streams w \/ streams w' = alter (map S) s (streams w) ->
    media_change w w'.

(** Every recorder records a stream that exists. *)
Definition recorders_wf (w : World) : Prop :=
  forall r x, recorders w !! r = Some x -> rec_stream x < length (streams w).

(** Stream [k] has been released by the [stop] event of its recorder [r]:
    the recorder is inactive with no [stop] event to come, [stop()] has been
    called once on each of the [tracks] tracks, and no other recorder records
    this stream. *)
Definition released (k r tracks : nat) (w : World) : Prop :=
  recorders w !! r = Some (mkRecorder k Inactive false) /\
  streams w !! k = Some (replicate tracks 1) /\
  forall r' x, recorders w !! r' = Some x -> rec_stream x = k -> r' = r.

(** ** Further vocabulary for the component *)

(** The recorder the component refers to is in the recording state. *)
Definition current_recorder_recording (w : World) : bool :=
  match mediaRecorderRef w with
  | Some r =>
      match recorders w !! r with
      | Some (mkRecorder _ Recording _) => true
      | _ => false
      end
  | None => false
  end.

(** A recorder whose stream has not been released yet: it records, or its
    [stop] event is still to come. *)
Definition holds_stream (x : MediaRecorder) : bool :=
  match rec_state x with
  | Recording => true
  | Inactive => rec_stop_queued x
  end.

(** Recorders and streams come in pairs, the tracks of a recorder that holds
    its stream are all live, and no track has been stopped more than once. *)
Definition media_paired (w : World) : Prop :=
  length (recorders w) = length (streams w) /\
  forall i x tr,
    recorders w !! i = Some x -> streams w !! i = Some tr ->
    rec_stream x = i /\
    (tr = replicate (length tr) 0 \/
     holds_stream x = false /\ tr = replicate (length tr) 1).

(** The multipart bodies [handleFullConsultation] can build. *)
Definition request_shape (formData : FormData) : Prop :=
  (exists a, formData = [("audio", a)]) \/
  (exists i, formData = [("image", i)]) \/
  (exists a i, formData = [("audio", a); ("image", i)]).

(** The playable blob a [response_audio] string decodes to. *)
Definition decode_blob (payload : string) : option Blob :=
  match Base64.atob payload with
  | Some bin => Some (mkBlob (Base64.char_codes bin) "audio/mpeg")
  | None => None
  end.


(** A valid payload, a malformed one, and a valid one again. *)
Definition three_replies : World :=
  run standard_host initial_world
    [ImageUpload (Some rash_png); ClickConsult;
     PostResolved (mkReply None None (Some "QUJD"));
     ClickConsult;
     PostResolved (mkReply None None (Some "not*base64"));
     ClickConsult;
     PostResolved (mkReply None None (Some "REVG"))].

(** ** The payloads the endpoint sends *)

Module Base64Encoding.

(** The standard base64 encoding with padding (RFC 4648), as the endpoint
    applies it to the audio it returns: the input that [atob] is there to
    decode. *)

Definition char_of_sextet (v : N) : ascii :=
  ascii_of_N
    (if (v <? 26)%N then v + 65
     else if (v <? 52)%N then v + 71
     else if (v <? 62)%N then v - 4
     else if (v =? 62)%N then 43
     else 47)%N.

Fixpoint sextets_of_octets (l : list N) : list N :=
  match l with
  | a :: b :: c :: r =>
      (a / 4)%N :: ((a mod 4) * 16 + b / 16)%N :: ((b mod 16) * 4 + c / 64)%N
        :: (c mod 64)%N :: sextets_of_octets r
  | [a; b] => [(a / 4)%N; ((a mod 4) * 16 + b / 16)%N; ((b mod 16) * 4)%N]
  | [a] => [(a / 4)%N; ((a mod 4) * 16)%N]
  | [] => []
  end.

Definition padding (n : nat) : list ascii :=
  match n mod 3 with
  | 1 => ["="%char; "="%char]
  | 2 => ["="%char]
  | _ => []
  end.

Definition encode (bs : list byte) : string :=
  string_of_list_ascii
    (map char_of_sextet (sextets_of_octets (map Byte.to_N bs)) ++ padding (length bs)).

(** The checks a character of the encoding has to pass. *)
Definition sextet_checked (v : N) : bool :=
  match Base64.sextet (char_of_sextet v) with
  | Some u => (u =? v)%N
  | None => false
  end
  && negb (Base64.is_whitespace (char_of_sextet v))
  && negb (Base64.is_pad (char_of_sextet v)).

End Base64Encoding.

(** ** Text to speech *)

Module TextToSpeech.

(** [handleTextToSpeech] calls no state setter: what it touches is the
    speech endpoint, the object URLs it makes, the [Audio] elements it plays
    and the console. *)
Record Speech := mkSpeech {
  (* the [{ text, language }] bodies posted to the speech endpoint *)
  speech_requests : list (option string * string);
  speech_pending : nat;
  (* the object URLs made for speech; URL [k] is the [k]-th entry *)
  speech_urls : list Blob;
  (* the URLs for which an [Audio] was made and [play()] called, in order *)
  speech_played : list nat;
  (* the errors passed to [console.error] *)
  console_errors : list Exn
}.

Definition initial_speech : Speech := mkSpeech [] 0 [] [] [].

(** [handleTextToSpeech(text)], up to its [await]. *)
Definition handleTextToSpeech (text : option string) (s : Speech) : Speech :=
  mkSpeech (speech_requests s ++ [(text, "en")]) (S (speech_pending s))
    (speech_urls s) (speech_played s) (console_errors s).

Definition console_error (err : Exn) (s : Speech) : Speech :=
  mkSpeech (speech_requests s) (speech_pending s) (speech_urls s) (speech_played s)
    (console_errors s ++ [err]).

(** [handleTextToSpeech] from its [await] on: [response] is
    [response.data.audio] of the reply, or the error the request was rejected
    with.  Every exception ends in the [catch], which only logs. *)
Definition handleTextToSpeech_resume (host : Host) (response : Outcome (option string))
    (s : Speech) : Speech :=
  match response with
  | Throw err => console_error err s
  | Return audio =>
      if Js.truthy audio then
        match Base64.atob (to_string audio) with
        | None => console_error invalid_character_error s
        | Some bin =>
            match process_blob_parts host [PartBytes (Base64.char_codes bin)] with
            | None => console_error (mkExn "RangeError" "Array buffer allocation failed" None) s
            | Some bytes =>
                mkSpeech (speech_requests s) (speech_pending s)
                  (speech_urls s ++ [mkBlob bytes "audio/mpeg"])
                  (speech_played s ++ [length (speech_urls s)])
                  (console_errors s)
            end
        end
      else s
  end.

Inductive SpeechEvent :=
| ClickPlayTranscription
| ClickPlayAnalysis
| SpeechResolved (audio : option string)
| SpeechRejected (err : Exn).

Definition settle (s : Speech) : Speech :=
  mkSpeech (speech_requests s) (pred (speech_pending s)) (speech_urls s) (speech_played s)
    (console_errors s).

(** The two play buttons are rendered with their texts, that is, when the
    text is truthy. *)
Definition speech_step (host : Host) (w : World) (s : Speech) (e : SpeechEvent) : Speech :=
  match e with
  | ClickPlayTranscription =>
      if Js.truthy (transcription w) then handleTextToSpeech (transcription w) s else s
  | ClickPlayAnalysis =>
      if Js.truthy (imageAnalysis w) then handleTextToSpeech (imageAnalysis w) s else s
  | SpeechResolved audio =>
      match speech_pending s with
      | O => s
      | S _ => handleTextToSpeech_resume host (Return audio) (settle s)
      end
  | SpeechRejected err =>
      match speech_pending s with
      | O => s
      | S _ => handleTextToSpeech_resume host (Throw err) (settle s)
      end
  end.

(** The component together with its text to speech. *)
Inductive PageEvent :=
| OfComponent (e : Event)
| OfSpeech (e : SpeechEvent).

Definition page_step (host : Host) (p : World * Speech) (e : PageEvent) : World * Speech :=
  match e with
  | OfComponent e => (step host (fst p) e, snd p)
  | OfSpeech e => (fst p, speech_step host (fst p) (snd p) e)
  end.

Definition page_run (host : Host) (p : World * Speech) (events : list PageEvent)
    : World * Speech :=
  fold_left (page_step host) events p.

(** What holds of the speech side in every state: each request carries a
    non-empty text and the language "en"; each URL made has been played once,
    when it was made; and no request has ended in more than one of a URL and
    a logged error. *)
Definition speech_ok (s : Speech) : Prop :=
  Forall (fun body => Js.truthy (fst body) = true /\ snd body = "en") (speech_requests s) /\
  speech_played s = seq 0 (length (speech_urls s)) /\
  length (speech_urls s) + length (console_errors s) + speech_pending s
    <= length (speech_requests s).

End TextToSpeech.

(** * The symptom selector (frontend/src/components/SymptomSelector.js) *)

Module SymptomSelector.

(** [selected.includes(symptom)] *)
Definition includes (selected : list string) (symptom : string) : bool :=
  existsb (String.eqb symptom) selected.

(** [toggle(symptom)]: the list handed to [setSelected]. *)
Definition toggle (selected : list string) (symptom : string) : list string :=
  if includes selected symptom
  then List.filter (fun s => negb (String.eqb s symptom)) selected
  else selected ++ [symptom].





(** [sym.replace(/_/g, ' ')] *)
Fixpoint label (sym : string) : string :=
  match sym with
  | EmptyString => EmptyString
  | String c r => String (if Ascii.eqb c "_" then " "%char else c) (label r)
  end.

End SymptomSelector.

(** * The prediction result (components/PredictionResult.js) *)

Module PredictionResult.

(** [l.slice(first, last)] for [0 <= first <= last]. *)
Definition slice {A : Type} (l : list A) (first last : nat) : list A :=
  take (last - first) (drop first l).

(** The rows of "Alternative Possibilities" with the rank printed before
    each: [top_predictions.slice(1, 4).map((row, index) => ...)] with
    [#{index + 2}]. *)
Definition alternatives {A : Type} (top_predictions : list A) : list (nat * A) :=
  imap (fun index row => (index + 2, row)) (slice top_predictions 1 4).

End PredictionResult.

(** * The application shell (frontend/src/App.js) *)

Module App.

Inductive Tab := PredictionTab | ConsultationTab.

Section WithData.

(** What the prediction and metadata endpoints answer with is passed
    through to the components that render it. *)
Variables Prediction Meta : Type.

Record State := mkState {
  (* useState *)
  symptoms : list string;
  selected : list string;
  loading : bool;
  result : option Prediction;
  meta : option Meta;
  error : option string;
  activeTab : Tab;
  (* the browser: whether the initial fetch is still pending, the
     [symptoms] arrays posted to the prediction endpoint, and the number of
     those posts still pending *)
  fetchPending : bool;
  predictRequests : list (list string);
  predictPending : nat
}.

(** The state when the component has mounted and its effect has started the
    two GET requests. *)
Definition initial : State :=
  mkState [] [] false None None None PredictionTab true [] 0.

Definition fetch_failed_message : string :=
  "Failed to load initial data. Ensure backend is running.".

Definition predict_failed_message : string := "Prediction failed. Please try again.".

(** [canPredict] *)
Definition canPredict (st : State) : bool :=
  match selected st with
  | [] => false
  | _ :: _ => true
  end.

(** [fetchData] from its [await Promise.all] on; [syms] is
    [symRes.data.symptoms]. *)
Definition fetchData_resume (response : Outcome (option (list string) * Meta)) (st : State)
    : State :=
  match response with
  | Return (syms, m) =>
      mkState (default [] syms) (selected st) (loading st) (result st) (Some m) None
        (activeTab st) false (predictRequests st) (predictPending st)
  | Throw _ =>
      mkState (symptoms st) (selected st) (loading st) (result st) (meta st)
        (Some fetch_failed_message)
        (activeTab st) false (predictRequests st) (predictPending st)
  end.

(** [handlePredict], up to its [await]. *)
Definition handlePredict (st : State) : State :=
  if negb (canPredict st) then st
  else
    mkState (symptoms st) (selected st) true (result st) (meta st) None
      (activeTab st) (fetchPending st)
      (predictRequests st ++ [selected st]) (S (predictPending st)).

(** [handlePredict] from its [await] on. *)
Definition handlePredict_resume (response : Outcome Prediction) (st : State) : State :=
  match response with
  | Return data =>
      mkState (symptoms st) (selected st) false (Some data) (meta st) (error st)
        (activeTab st) (fetchPending st) (predictRequests st) (predictPending st)
  | Throw e =>
      mkState (symptoms st) (selected st) false (result st) (meta st)
        (Some (Js.or_else (response_data_error e) predict_failed_message))
        (activeTab st) (fetchPending st) (predictRequests st) (predictPending st)
  end.

Definition handleClear (st : State) : State :=
  mkState (symptoms st) [] (loading st) None (meta st) None
    (activeTab st) (fetchPending st) (predictRequests st) (predictPending st).

(** [setSelected] as the symptom selector calls it. *)
Definition setSelected (v : list string) (st : State) : State :=
  mkState (symptoms st) v (loading st) (result st) (meta st) (error st)
    (activeTab st) (fetchPending st) (predictRequests st) (predictPending st).

Definition setActiveTab (t : Tab) (st : State) : State :=
  mkState (symptoms st) (selected st) (loading st) (result st) (meta st) (error st)
    t (fetchPending st) (predictRequests st) (predictPending st).

Definition settle (st : State) : State :=
  mkState (symptoms st) (selected st) (loading st) (result st) (meta st) (error st)
    (activeTab st) (fetchPending st) (predictRequests st) (pred (predictPending st)).

Inductive Event :=
| FetchResolved (syms : option (list string)) (m : Meta)
| FetchRejected (e : Exn)
| ClickSymptom (sym : string)
| ClickPredict
| ClickClear
| PredictResolved (data : Prediction)
| PredictRejected (e : Exn)
| ClickTab (t : Tab).

(** A symptom can be clicked when the prediction tab shows it: as a card of
    the symptom grid or as a tag of the selection. *)
Definition clickable (st : State) (sym : string) : bool :=
  match activeTab st with
  | PredictionTab => existsb (String.eqb sym) (symptoms st ++ selected st)
  | ConsultationTab => false
  end.

Definition step (st : State) (e : Event) : State :=
  match e with
  | FetchResolved syms m =>
      if fetchPending st then fetchData_resume (Return (syms, m)) st else st
  | FetchRejected e =>
      if fetchPending st then fetchData_resume (Throw e) st else st
  | ClickSymptom sym =>
      if clickable st sym then setSelected (SymptomSelector.toggle (selected st) sym) st
      else st
  | ClickPredict =>
      match activeTab st with
      | PredictionTab => if negb (canPredict st) || loading st then st else handlePredict st
      | ConsultationTab => st
      end
  | ClickClear =>
      match activeTab st with
      | PredictionTab => if loading st then st else handleClear st
      | ConsultationTab => st
      end
  | PredictResolved data =>
      match predictPending st with
      | O => st
      | S _ => handlePredict_resume (Return data) (settle st)
      end
  | PredictRejected e =>
      match predictPending st with
      | O => st
      | S _ => handlePredict_resume (Throw e) (settle st)
      end
  | ClickTab t => setActiveTab t st
  end.

Definition run (st : State) (events : list Event) : State :=
  fold_left step events st.

(** What the shell keeps true: the selection has no duplicates and holds
    only symptoms the backend listed; every request sent carried a non-empty,
    duplicate-free selection of such symptoms; [loading] is set exactly while
    one request is pending; and before the symptom list has arrived nothing
    is selected and nothing has been sent. *)
Definition invariant (st : State) : Prop :=
  NoDup (selected st) /\
  incl (selected st) (symptoms st) /\
  Forall (fun req => req <> [] /\ NoDup req /\ incl req (symptoms st)) (predictRequests st) /\
  predictPending st = (if loading st then 1 else 0) /\
  (fetchPending st = true -> symptoms st = [] /\ predictRequests st = []).

End WithData.

End App.

(** * The lifestyle wizard (the LifestyleRecommendations component) *)

Module Lifestyle.

Record UserProfile := mkProfile {
  age : string;
  gender : string;
  height_cm : string;
  weight_kg : string;
  activity_level : nat;
  symptoms : list string;
  conditions : list string;
  symptom_severity : nat
}.

Definition blank_profile : UserProfile := mkProfile "" "" "" "" 1 [] [] 0.

(** The [value]s of [activityLevels] and of [severityLevels]. *)
Definition levels : list nat := [0; 1; 2].

Definition commonSymptoms : list string :=
  ["Fatigue"; "Headache"; "Back Pain"; "Anxiety"; "Sleep Issues";
   "Digestive Issues"; "Joint Pain"; "Stress"; "Dizziness"; "Chest Pain"].

Definition commonConditions : list string :=
  ["Hypertension"; "Diabetes"; "Heart Disease"; "Obesity"; "Arthritis";
   "Asthma"; "Depression"; "Anxiety Disorder"; "High Cholesterol"; "Osteoporosis"].

(** The fields [handleInputChange] is called for with the input's string. *)
Inductive TextField := Age | Gender | HeightCm | WeightKg.

(** The fields it is called for with [parseInt] of a radio button's value,
    which is the number of the level the button stands for. *)
Inductive LevelField := ActivityLevel | SymptomSeverity.

(** The fields [handleArrayToggle] is called for. *)
Inductive ArrayField := Symptoms | Conditions.

(** [handleInputChange(field, value)]: the profile handed to
    [setUserProfile]. *)
Definition handleInputChange_text (field : TextField) (value : string) (prev : UserProfile)
    : UserProfile :=
  match field with
  | Age => mkProfile value (gender prev) (height_cm prev) (weight_kg prev)
             (activity_level prev) (symptoms prev) (conditions prev) (symptom_severity prev)
  | Gender => mkProfile (age prev) value (height_cm prev) (weight_kg prev)
                (activity_level prev) (symptoms prev) (conditions prev) (symptom_severity prev)
  | HeightCm => mkProfile (age prev) (gender prev) value (weight_kg prev)
                  (activity_level prev) (symptoms prev) (conditions prev) (symptom_severity prev)
  | WeightKg => mkProfile (age prev) (gender prev) (height_cm prev) value
                  (activity_level prev) (symptoms prev) (conditions prev) (symptom_severity prev)
  end.

Definition handleInputChange_level (field : LevelField) (value : nat) (prev : UserProfile)
    : UserProfile :=
  match field with
  | ActivityLevel => mkProfile (age prev) (gender prev) (height_cm prev) (weight_kg prev)
                       value (symptoms prev) (conditions prev) (symptom_severity prev)
  | SymptomSeverity => mkProfile (age prev) (gender prev) (height_cm prev) (weight_kg prev)
                         (activity_level prev) (symptoms prev) (conditions prev) value
  end.

(** [prev[field].includes(item) ? prev[field].filter(i => i !== item)
    : [...prev[field], item]] *)
Definition toggled (l : list string) (item : string) : list string :=
  if existsb (String.eqb item) l
  then List.filter (fun i => negb (String.eqb i item)) l
  else l ++ [item].

Definition handleArrayToggle (field : ArrayField) (item : string) (prev : UserProfile)
    : UserProfile :=
  match field with
  | Symptoms => mkProfile (age prev) (gender prev) (height_cm prev) (weight_kg prev)
                  (activity_level prev) (toggled (symptoms prev) item) (conditions prev)
                  (symptom_severity prev)
  | Conditions => mkProfile (age prev) (gender prev) (height_cm prev) (weight_kg prev)
                    (activity_level prev) (symptoms prev) (toggled (conditions prev) item)
                    (symptom_severity prev)
  end.

Section WithData.

(** JavaScript numbers and the two parsers are the host's; what the endpoint
    recommends is passed through to the page. *)
Variables Number Recommendations : Type.
Variables parseInt parseFloat : string -> Number.

(** The body of the POST: the profile with its numbers parsed. *)
Record Body := mkBody {
  body_age : Number;
  body_gender : string;
  body_height_cm : option Number;
  body_weight_kg : option Number;
  body_activity_level : nat;
  body_symptoms : list string;
  body_conditions : list string;
  body_symptom_severity : nat
}.

Definition body_of (p : UserProfile) : Body :=
  mkBody (parseInt (age p)) (gender p)
    (if Js.truthy_string (height_cm p) then Some (parseFloat (height_cm p)) else None)
    (if Js.truthy_string (weight_kg p) then Some (parseFloat (weight_kg p)) else None)
    (activity_level p) (symptoms p) (conditions p) (symptom_severity p).

Record State := mkState {
  (* useState *)
  userProfile : UserProfile;
  recommendations : option Recommendations;
  loading : bool;
  error : option string;
  currentStep : nat;
  (* the bodies posted to the recommendation endpoint and the number of
     posts still pending *)
  requests : list Body;
  pending : nat
}.

Definition initial : State := mkState blank_profile None false None 1 [] 0.

Definition setUserProfile (f : UserProfile -> UserProfile) (st : State) : State :=
  mkState (f (userProfile st)) (recommendations st) (loading st) (error st)
    (currentStep st) (requests st) (pending st).

Definition setCurrentStep (n : nat) (st : State) : State :=
  mkState (userProfile st) (recommendations st) (loading st) (error st)
    n (requests st) (pending st).

Definition missing_fields_message : string := "Please fill in at least age and gender".

(** [generateRecommendations], up to its [await]. *)
Definition generateRecommendations (st : State) : State :=
  if negb (Js.truthy_string (age (userProfile st)))
     || negb (Js.truthy_string (gender (userProfile st)))
  then
    mkState (userProfile st) (recommendations st) (loading st)
      (Some missing_fields_message) (currentStep st) (requests st) (pending st)
  else
    mkState (userProfile st) (recommendations st) true None (currentStep st)
      (requests st ++ [body_of (userProfile st)]) (S (pending st)).

(** [generateRecommendations] from its [await] on; [recs] is
    [response.data.recommendations]. *)
Definition generateRecommendations_resume (response : Outcome (option Recommendations))
    (st : State) : State :=
  match response with
  | Return recs =>
      mkState (userProfile st) recs false (error st) (currentStep st)
        (requests st) (pending st)
  | Throw err =>
      mkState (userProfile st) (recommendations st) false
        (Some (String.append "Failed to generate recommendations: "
                 (Js.or_else (response_data_error err) (exn_message err))))
        (currentStep st) (requests st) (pending st)
  end.

Definition resetForm (st : State) : State :=
  mkState blank_profile None (loading st) None 1 (requests st) (pending st).

Definition settle (st : State) : State :=
  mkState (userProfile st) (recommendations st) (loading st) (error st)
    (currentStep st) (requests st) (pred (pending st)).

Inductive Event :=
| ChangeText (field : TextField) (value : string)
| ChooseLevel (field : LevelField) (level : nat)
| ToggleItem (field : ArrayField) (item : string)
| ClickPrevious
| ClickNext
| ClickGenerate
| ClickReset
| Resolved (recs : option Recommendations)
| Rejected (err : Exn).

(** The wizard is rendered as long as there are no recommendations. *)
Definition wizard_shown (st : State) : bool :=
  match recommendations st with
  | Some _ => false
  | None => true
  end.

(** [disabled] of the Next button. *)
Definition next_disabled (st : State) : bool :=
  (currentStep st =? 1)%nat
  && (negb (Js.truthy_string (age (userProfile st)))
      || negb (Js.truthy_string (gender (userProfile st)))).

(** A control takes its event when the page renders it and it is not
    disabled: the text inputs on step 1; the activity radios and the symptom
    boxes on step 2, with the severity radios once a symptom is ticked; the
    condition boxes on step 3. *)
Definition enabled (st : State) (e : Event) : bool :=
  match e with
  | ChangeText _ _ => wizard_shown st && (currentStep st =? 1)%nat
  | ChooseLevel ActivityLevel level =>
      wizard_shown st && (currentStep st =? 2)%nat && existsb (Nat.eqb level) levels
  | ChooseLevel SymptomSeverity level =>
      wizard_shown st && (currentStep st =? 2)%nat && existsb (Nat.eqb level) levels
      && (0 <? length (symptoms (userProfile st)))%nat
  | ToggleItem Symptoms item =>
      wizard_shown st && (currentStep st =? 2)%nat && existsb (String.eqb item) commonSymptoms
  | ToggleItem Conditions item =>
      wizard_shown st && (currentStep st =? 3)%nat
      && existsb (String.eqb item) commonConditions
  | ClickPrevious => wizard_shown st && (1 <? currentStep st)%nat
  | ClickNext => wizard_shown st && (currentStep st <? 3)%nat && negb (next_disabled st)
  | ClickGenerate => wizard_shown st && negb (currentStep st <? 3)%nat && negb (loading st)
  | ClickReset => negb (wizard_shown st)
  | Resolved _ | Rejected _ => (0 <? pending st)%nat
  end.

Definition handle (st : State) (e : Event) : State :=
  match e with
  | ChangeText field value => setUserProfile (handleInputChange_text field value) st
  | ChooseLevel field level => setUserProfile (handleInputChange_level field level) st
  | ToggleItem field item => setUserProfile (handleArrayToggle field item) st
  | ClickPrevious => setCurrentStep (currentStep st - 1) st
  | ClickNext => setCurrentStep (currentStep st + 1) st
  | ClickGenerate => generateRecommendations st
  | ClickReset => resetForm st
  | Resolved recs => generateRecommendations_resume (Return recs) (settle st)
  | Rejected err => generateRecommendations_resume (Throw err) (settle st)
  end.

Definition step (st : State) (e : Event) : State :=
  if enabled st e then handle st e else st.

Definition run (st : State) (events : list Event) : State :=
  fold_left step events st.

(** What the wizard keeps true. *)
Definition invariant (st : State) : Prop :=
  1 <= currentStep st <= 3 /\
  (2 <= currentStep st ->
   age (userProfile st) <> "" /\ gender (userProfile st) <> "") /\
  error st <> Some missing_fields_message /\
  pending st = (if loading st then 1 else 0) /\
  NoDup (symptoms (userProfile st)) /\
  incl (symptoms (userProfile st)) commonSymptoms /\
  NoDup (conditions (userProfile st)) /\
  incl (conditions (userProfile st)) commonConditions /\
  Forall (fun body => body_gender body <> "") (requests st).

End WithData.

End Lifestyle.

(** A filled-in profile on step 3 with its request pending; the lengths of
    the strings stand in for the numbers parsed from them. *)
Definition generating : Lifestyle.State nat unit :=
  Lifestyle.run nat unit String.length String.length (Lifestyle.initial nat unit)
    [Lifestyle.ChangeText unit Lifestyle.Age "42";
     Lifestyle.ChangeText unit Lifestyle.Gender "female";
     Lifestyle.ClickNext unit; Lifestyle.ClickNext unit; Lifestyle.ClickGenerate unit].

(** * Properties *)

Arguments Base64.atob : simpl never.

(** Unfolds a handler down to the world it computes. *)
Ltac run_handler :=
  unfold step, dispatch, handleFullConsultation_resume, handleFullConsultation,
    startRecording_resume, startRecording, stopRecording, onstop, ondataavailable,
    handleAudioUpload, handleImageUpload, consult_disabled,
    atob, new_Blob, new_File, createObjectURL, axios_post, getUserMedia,
    open_stream, new_MediaRecorder, recorder_start, recorder_stop, stop_tracks,
    try_finally, try_catch, when, settled, bind, get, update, ret, throw in *;
  simpl in *.

(** ** Submission with nothing staged *)

(** C4. When [handleFullConsultation] runs with neither an audio file nor an
    image staged, it returns at once with the missing-input message set as
    the displayed error: no request is sent, none becomes pending, and nothing
    else changes, the (empty) staging slots included. *)
Theorem submit_without_input_is_rejected_locally (w : World) :
  audioFile w = None -> imageFile w = None ->
  handleFullConsultation w = (Return tt, set_error (Some missing_input_message) w) /\
  let w' := dispatch handleFullConsultation w in
  error w' = Some missing_input_message /\
  requests w' = requests w /\ pendingPosts w' = pendingPosts w /\
  audioFile w' = None /\ imageFile w' = None /\ loading w' = loading w.
Proof.
  intros Ha Hi. run_handler. rewrite Ha, Hi. simpl.
  repeat split; assumption.
Qed.

Lemma submit_without_input_is_rejected_locally_witness :
  audioFile initial_world = None /\ imageFile initial_world = None /\
  error (dispatch handleFullConsultation initial_world) = Some missing_input_message /\
  requests (dispatch handleFullConsultation initial_world) = [].
Proof.
  split; [reflexivity | split; [reflexivity |]].
  destruct (submit_without_input_is_rejected_locally initial_world eq_refl eq_refl)
    as [_ [He [Hr _]]].
  split; [exact He | exact Hr].
Defined.

(** With nothing staged the consult button is disabled as well: a click on
    it does not even reach the handler. *)
Lemma click_consult_without_input (host : Host) (w : World) :
  audioFile w = None -> imageFile w = None -> step host w ClickConsult = w.
Proof.
  intros Ha Hi. unfold step, consult_disabled. rewrite Ha, Hi. simpl.
  now rewrite orb_true_r.
Qed.

(** ** Failed submissions *)

(** C5, as the code has it.  When the outstanding request is rejected with
    [err], the displayed error is [err.response.data.error] if the rejection
    carries a response whose body has a non-empty [error], and the fixed text
    "Failed to process consultation" in every other case (no response, no
    body, no [error] field, or an empty one).  [loading] goes back to false,
    both staged files are left as they were and nothing is sent, so with a
    file staged the consult button is enabled again. *)
Theorem failed_submission_keeps_inputs (host : Host) (w : World) (n : nat) (err : Exn) :
  pendingPosts w = S n ->
  let w' := step host w (PostRejected err) in
  error w' = Some (Js.or_else (response_data_error err) failure_message) /\
  (forall c m, response_data_error err = Some (String c m) -> error w' = Some (String c m)) /\
  (response_data_error err = None \/ response_data_error err = Some "" ->
   error w' = Some failure_message) /\
  loading w' = false /\ audioFile w' = audioFile w /\ imageFile w' = imageFile w /\
  requests w' = requests w /\
  (Js.truthy_ref (audioFile w) || Js.truthy_ref (imageFile w) = true ->
   consult_disabled w' = false).
Proof.
  intros Hp. unfold step. rewrite Hp. run_handler.
  repeat split.
  - intros c m Hm. now rewrite Hm.
  - intros [Hm | Hm]; now rewrite Hm.
  - destruct (audioFile w), (imageFile w); simpl; intros H; congruence.
Qed.

Lemma failed_submission_keeps_inputs_witness :
  pendingPosts submitting_world = 1 /\
  error (step standard_host submitting_world (PostRejected (service_error 500 "model unavailable")))
    = Some "model unavailable" /\
  imageFile (step standard_host submitting_world (PostRejected (service_error 500 "model unavailable")))
    = Some rash_png.
Proof.
  split; [reflexivity |].
  destruct (failed_submission_keeps_inputs standard_host submitting_world 0
              (service_error 500 "model unavailable") eq_refl)
    as [He [_ [_ [_ [_ [Hi _]]]]]].
  split; [exact He | exact Hi].
Defined.

(** C5 as stated fails: a server-supplied message that is the empty string
    is replaced by the fixed text, and a rejection without a response shows
    the fixed text rather than the failure's own message. *)
Lemma failure_message_not_always_verbatim :
  response_data_error (service_error 500 "") = Some "" /\
  error (step standard_host submitting_world (PostRejected (service_error 500 ""))) <> Some "" /\
  error (step standard_host submitting_world (PostRejected network_error))
    <> Some (exn_message network_error).
Proof.
  split; [reflexivity |]. split; vm_compute; discriminate.
Qed.

(** ** Response audio *)

(** Only the empty string decodes to nothing without being malformed, so a
    malformed payload is never the empty string. *)
Lemma malformed_is_truthy (p : string) :
  Base64.atob p = None -> Js.truthy_string p = true.
Proof.
  destruct p as [| c p]; [discriminate | reflexivity].
Qed.

(** C7, as the code has it.  A reply without a [response_audio] field makes
    no [atob] call and creates no object URL, and the held [responseAudio]
    stays what it was.  The test is one of truthiness, so a reply whose
    [response_audio] is the empty string is handled in exactly the same way:
    the two replies lead to the same world. *)
Theorem absent_response_audio_skips_decode
    (host : Host) (w : World) (n : nat) (t a : option string) :
  pendingPosts w = S n ->
  let w' := step host w (PostResolved (mkReply t a None)) in
  atobCalls w' = atobCalls w /\
  objectURLs w' = objectURLs w /\
  responseAudio w' = responseAudio w /\
  error w' = error w /\
  w' = step host w (PostResolved (mkReply t a (Some ""))).
Proof.
  intros Hp. unfold step. rewrite Hp. run_handler. repeat split.
Qed.

Lemma absent_response_audio_skips_decode_witness :
  pendingPosts submitting_world = 1 /\
  atobCalls (step standard_host submitting_world
               (PostResolved (mkReply (Some "I have a headache") None None))) = [] /\
  objectURLs (step standard_host submitting_world
                (PostResolved (mkReply (Some "I have a headache") None None))) = [].
Proof.
  split; [reflexivity |].
  destruct (absent_response_audio_skips_decode standard_host submitting_world 0
              (Some "I have a headache") None eq_refl)
    as [Hd [Hu _]].
  split; [exact Hd | exact Hu].
Defined.

(** C7 as stated fails in its last part: the component does not tell an
    absent [response_audio] from an empty one. *)
Lemma absent_and_empty_response_audio_coincide :
  step standard_host submitting_world
    (PostResolved (mkReply (Some "I have a headache") None None))
  = step standard_host submitting_world
      (PostResolved (mkReply (Some "I have a headache") None (Some ""))).
Proof. reflexivity. Qed.

(** C8. When the reply's [response_audio] is not valid base64, [atob] throws
    its [InvalidCharacterError]; the exception is caught, the fixed failure
    text is displayed and [loading] goes back to false.  No object URL has
    been created and [responseAudio] is what it was before the reply. *)
Theorem malformed_response_audio_yields_no_resource
    (host : Host) (w : World) (n : nat) (t a : option string) (p : string) :
  pendingPosts w = S n ->
  Base64.atob p = None ->
  let w' := step host w (PostResolved (mkReply t a (Some p))) in
  fst (atob (Some p) w) = Throw invalid_character_error /\
  atobCalls w' = atobCalls w ++ [p] /\
  objectURLs w' = objectURLs w /\
  responseAudio w' = responseAudio w /\
  error w' = Some failure_message /\
  loading w' = false.
Proof.
  intros Hp Hbad. pose proof (malformed_is_truthy p Hbad) as Ht.
  unfold step. rewrite Hp. run_handler.
  rewrite Ht, Hbad. simpl. repeat split.
Qed.

Lemma malformed_response_audio_yields_no_resource_witness :
  pendingPosts submitting_world = 1 /\
  Base64.atob "not*base64" = None /\
  objectURLs (step standard_host submitting_world
                (PostResolved (mkReply None (Some "Possible contact dermatitis")
                                 (Some "not*base64")))) = [] /\
  error (step standard_host submitting_world
           (PostResolved (mkReply None (Some "Possible contact dermatitis")
                            (Some "not*base64")))) = Some failure_message.
Proof.
  split; [reflexivity |]. split; [reflexivity |].
  destruct (malformed_response_audio_yields_no_resource standard_host submitting_world 0
              None (Some "Possible contact dermatitis") "not*base64" eq_refl eq_refl)
    as [_ [_ [Hu [_ [He _]]]]].
  split; [exact Hu | exact He].
Defined.

(** C10 at that input: the second reply is not decoded and creates no object
    URL, but [responseAudio] still holds the URL made for the first reply, so
    the audio element and its play button are rendered next to the second
    reply's text. *)
Theorem empty_response_audio_keeps_earlier_playback :
  atobCalls second_reply_without_audio = ["QUJD"] /\
  length (objectURLs second_reply_without_audio) = 1 /\
  transcription second_reply_without_audio = Some "I have a headache" /\
  responseAudio second_reply_without_audio = Some 0 /\
  playback_offered second_reply_without_audio = true.
Proof. repeat split. Qed.

(** ** One request at a time *)

Lemma step_posts_match_loading (host : Host) (w : World) (e : Event) :
  posts_match_loading w -> posts_match_loading (step host w e).
Proof.
  unfold posts_match_loading. destruct w. intros H.
  destruct e; run_handler; repeat case_match; simpl in *;
    simplify_eq; simpl in *; try reflexivity; try congruence.
Qed.

Lemma run_posts_match_loading (host : Host) (events : list Event) (w : World) :
  posts_match_loading w -> posts_match_loading (run host w events).
Proof.
  revert w. induction events as [| e events IH]; intros w H; simpl.
  - exact H.
  - apply IH, step_posts_match_loading, H.
Qed.

Lemma reachable_posts_match_loading (host : Host) (w : World) :
  reachable host w -> posts_match_loading w.
Proof.
  intros [events ->]. now apply run_posts_match_loading.
Qed.

(** While [loading] is set the consult button is disabled. *)
Lemma click_consult_while_loading (host : Host) (w : World) :
  loading w = true -> step host w ClickConsult = w.
Proof.
  intros H. unfold step, consult_disabled. now rewrite H.
Qed.

Lemma click_consult_enabled (host : Host) (w : World) :
  consult_disabled w = false ->
  let w' := step host w ClickConsult in
  loading w' = true /\
  requests w' = requests w ++ [staged_form w] /\
  pendingPosts w' = S (pendingPosts w).
Proof.
  intros H. unfold step. rewrite H.
  unfold consult_disabled in H. apply orb_false_elim in H as [_ H].
  unfold staged_form. run_handler. rewrite H. simpl. repeat split.
Qed.

(** C2. In every state the component can reach, at most one consultation
    request is outstanding, and while one is, a click on the consult button
    is ignored: the state, and with it the list of requests sent, stays as it
    is.  So two clicks in a row on the enabled button send exactly one
    request: the one for the files staged then. *)
Theorem submit_while_submitting_is_ignored (host : Host) (w : World) :
  reachable host w ->
  (0 < pendingPosts w -> pendingPosts w = 1 /\ step host w ClickConsult = w) /\
  (consult_disabled w = false ->
   requests (run host w [ClickConsult; ClickConsult]) = requests w ++ [staged_form w] /\
   pendingPosts (run host w [ClickConsult; ClickConsult]) = 1).
Proof.
  intros Hr. pose proof (reachable_posts_match_loading host w Hr) as Hinv.
  unfold posts_match_loading in Hinv. split.
  - intros Hp. destruct (loading w) eqn:Hl; [| lia].
    split; [exact Hinv | now apply click_consult_while_loading].
  - intros He. destruct (click_consult_enabled host w He) as [Hl [Hq Hp]].
    change (run host w [ClickConsult; ClickConsult])
      with (step host (step host w ClickConsult) ClickConsult).
    rewrite (click_consult_while_loading host _ Hl).
    split; [exact Hq |]. rewrite Hp.
    unfold consult_disabled in He. apply orb_false_elim in He as [He _].
    rewrite He in Hinv. now rewrite Hinv.
Qed.

Lemma submit_while_submitting_is_ignored_witness :
  (reachable standard_host submitting_world /\ 0 < pendingPosts submitting_world /\
   step standard_host submitting_world ClickConsult = submitting_world) /\
  (reachable standard_host ready_world /\ consult_disabled ready_world = false /\
   requests (run standard_host ready_world [ClickConsult; ClickConsult])
     = [[("image", rash_png)]]).
Proof.
  assert (Hs : reachable standard_host submitting_world)
    by (exists [ImageUpload (Some rash_png); ClickConsult]; reflexivity).
  assert (Hr : reachable standard_host ready_world)
    by (exists [ImageUpload (Some rash_png)]; reflexivity).
  split.
  - split; [exact Hs |]. split; [simpl; lia |].
    destruct (submit_while_submitting_is_ignored standard_host submitting_world Hs) as [H _].
    apply H. simpl. lia.
  - split; [exact Hr |]. split; [reflexivity |].
    destruct (submit_while_submitting_is_ignored standard_host ready_world Hr) as [_ H].
    destruct (H eq_refl) as [Hq _]. exact Hq.
Defined.

(** The guard is the button's [disabled] attribute: the handler itself, run
    a second time while [loading] is set, posts again. *)
Lemma handler_has_no_guard_of_its_own :
  length (requests (dispatch handleFullConsultation submitting_world)) = 2.
Proof. reflexivity. Qed.

(** ** Playback resources *)

(** C3 as stated fails: after the second reply both object URLs are live,
    the first one has not been released. *)
Lemma earlier_playback_resource_not_released :
  objectURLs two_replies_with_audio
    = [mkBlob [x41; x42; x43]%byte "audio/mpeg"; mkBlob [x44; x45; x46]%byte "audio/mpeg"] /\
  responseAudio two_replies_with_audio = Some 1.
Proof. split; reflexivity. Qed.

(** C3, as the code has it.  The component keeps one reference,
    [responseAudio], and no event releases an object URL: an event leaves the
    URL store as it is, or adds one URL to it and makes [responseAudio]
    refer to the new one. *)
Theorem object_urls_are_never_released (host : Host) (w : World) (e : Event) :
  objectURLs (step host w e) = objectURLs w \/
  exists b,
    objectURLs (step host w e) = objectURLs w ++ [b] /\
    responseAudio (step host w e) = Some (length (objectURLs w)).
Proof.
  destruct w. destruct e; run_handler; repeat case_match; simpl in *;
    simplify_eq; simpl in *; try (left; reflexivity).
  right. eexists. split; reflexivity.
Qed.

(** ** Stopping when not recording *)

(** C9. When the component is not recording, [stopRecording] leaves the
    whole world as it is: the recording flag, the staged audio file, the
    chunks of the last recording, the recorders and the streams.  It returns
    without an exception before the first recording, because no recorder
    exists, and after a recording on every host on which [stop()] on an
    inactive recorder does nothing, as the current standard has it. *)
Theorem stop_when_not_recording_is_noop (host : Host) (w : World) :
  capture_recording w = false ->
  snd (stopRecording host w) = w /\
  (mediaRecorderRef w = None \/ stop_inactive_throws host = false ->
   fst (stopRecording host w) = Return tt).
Proof.
  unfold capture_recording. destruct w. simpl. intros Hc.
  apply orb_false_elim in Hc as [-> Hc]. run_handler. split.
  - repeat case_match; simpl in *; simplify_eq; reflexivity.
  - intros [-> | ->]; repeat case_match; simpl in *; simplify_eq; reflexivity.
Qed.

Lemma stop_when_not_recording_is_noop_witness :
  capture_recording recorded_world = false /\
  stop_inactive_throws standard_host = false /\
  stopRecording standard_host recorded_world = (Return tt, recorded_world).
Proof.
  split; [reflexivity |]. split; [reflexivity |].
  destruct (stop_when_not_recording_is_noop standard_host recorded_world eq_refl)
    as [Hw Hr].
  rewrite (surjective_pairing (stopRecording standard_host recorded_world)).
  rewrite Hw, (Hr (or_intror eq_refl)). reflexivity.
Defined.

(** On a host of the earlier standard the second [stop()] throws. *)
Lemma stop_after_recording_on_legacy_host (w : World) (r : nat) :
  capture_recording w = false ->
  mediaRecorderRef w = Some r ->
  fst (stopRecording legacy_host w) = Throw invalid_state_error.
Proof.
  unfold capture_recording. destruct w. simpl. intros Hc ->.
  apply orb_false_elim in Hc as [-> Hc].
  run_handler. repeat case_match; simpl in *; simplify_eq; reflexivity.
Qed.

(** ** One recording session *)

Lemma lookup_snoc_last {A : Type} (l : list A) (x : A) :
  (l ++ [x]) !! length l = Some x.
Proof. now apply list_lookup_middle. Qed.

Lemma insert_snoc_last {A : Type} (l : list A) (x y : A) :
  <[length l := y]> (l ++ [x]) = l ++ [y].
Proof.
  rewrite insert_app_r_alt by lia. now rewrite Nat.sub_diag.
Qed.

Lemma alter_snoc_last {A : Type} (f : A -> A) (l : list A) (x : A) :
  alter f (length l) (l ++ [x]) = l ++ [f x].
Proof.
  rewrite alter_app_r_alt by lia. now rewrite Nat.sub_diag.
Qed.

Lemma run_app (host : Host) (w : World) (l1 l2 : list Event) :
  run host w (l1 ++ l2) = run host (run host w l1) l2.
Proof. apply fold_left_app. Qed.

Lemma step_granted (host : Host) (w : World) (n tracks : nat) :
  pendingMic w = S n ->
  step host w (MicGranted tracks) = session_world w n tracks [] Recording false true.
Proof.
  intros Hp. unfold step. rewrite Hp. unfold session_world. destruct w.
  run_handler. rewrite lookup_snoc_last. simpl. now rewrite insert_snoc_last.
Qed.

Lemma run_chunks (host : Host) (w : World) (n tracks : nat) (state : RecordingState)
    (queued flag : bool) (arrived chunks : list Blob) :
  state = Recording \/ queued = true ->
  run host (session_world w n tracks arrived state queued flag)
    (map (DataAvailable (length (recorders w))) chunks)
  = session_world w n tracks (arrived ++ chunks) state queued flag.
Proof.
  intros Hd. revert arrived.
  induction chunks as [| c chunks IH]; intros arrived; simpl.
  - now rewrite app_nil_r.
  - rewrite lookup_snoc_last.
    replace (arrived ++ c :: chunks) with ((arrived ++ [c]) ++ chunks)
      by now rewrite <- app_assoc.
    rewrite <- IH. f_equal.
    destruct state, queued; destruct Hd; try discriminate; reflexivity.
Qed.

Lemma step_stop_click (host : Host) (w : World) (n tracks : nat) (chunks : list Blob) :
  loading w = false ->
  step host (session_world w n tracks chunks Recording false true) ClickRecord
  = session_world w n tracks chunks Inactive true false.
Proof.
  intros Hl. unfold session_world. simpl. rewrite Hl.
  run_handler. rewrite lookup_snoc_last. simpl. now rewrite insert_snoc_last.
Qed.

(** The world after the session's [stop] event when the clip could be built:
    the clip is staged and every track of the session's stream has been
    stopped once. *)
Lemma step_stopped (host : Host) (w : World) (n tracks : nat) (chunks : list Blob)
    (payload content : list byte) :
  process_blob_parts host (map PartBlob chunks) = Some payload ->
  process_blob_parts host [PartBlob (mkBlob payload "audio/wav")] = Some content ->
  step host (session_world w n tracks chunks Inactive true false)
    (RecorderStopped (length (recorders w)))
  = set_streams (streams w ++ [replicate tracks 1])
      (set_audioFile (Some (mkFile content "recording.wav" "audio/wav"))
         (session_world w n tracks chunks Inactive false false)).
Proof.
  intros Hb Hf. unfold session_world. simpl. rewrite lookup_snoc_last.
  run_handler. rewrite Hb. simpl. rewrite Hf. simpl.
  rewrite insert_snoc_last, alter_snoc_last.
  replace (map S (replicate tracks 0)) with (replicate tracks 1)
    by (induction tracks; simpl; congruence).
  reflexivity.
Qed.

(** When the clip cannot be built the handler ends at the exception: nothing
    is staged and no track is stopped. *)
Lemma step_stopped_failing (host : Host) (w : World) (n tracks : nat) (chunks : list Blob) :
  process_blob_parts host (map PartBlob chunks) = None ->
  step host (session_world w n tracks chunks Inactive true false)
    (RecorderStopped (length (recorders w)))
  = session_world w n tracks chunks Inactive false false.
Proof.
  intros Hb. unfold session_world. simpl. rewrite lookup_snoc_last.
  run_handler. rewrite Hb. simpl. now rewrite insert_snoc_last.
Qed.

Lemma run_session (host : Host) (w : World) (n tracks : nat) (before after : list Blob)
    (payload content : list byte) :
  pendingMic w = S n ->
  loading w = false ->
  process_blob_parts host (map PartBlob (before ++ after)) = Some payload ->
  process_blob_parts host [PartBlob (mkBlob payload "audio/wav")] = Some content ->
  run host w (session_events (length (recorders w)) tracks before after)
  = set_streams (streams w ++ [replicate tracks 1])
      (set_audioFile (Some (mkFile content "recording.wav" "audio/wav"))
         (session_world w n tracks (before ++ after) Inactive false false)).
Proof.
  intros Hp Hl Hb Hf. unfold session_events.
  change (run host w (MicGranted tracks :: ?l))
    with (run host (step host w (MicGranted tracks)) l).
  rewrite (step_granted host w n tracks Hp).
  rewrite run_app, run_chunks by (now left). simpl app.
  change (run host ?w0 (ClickRecord :: ?l)) with (run host (step host w0 ClickRecord) l).
  rewrite (step_stop_click host w n tracks before Hl).
  rewrite run_app, run_chunks by (now right).
  change (run host ?w0 [?e]) with (step host w0 e).
  now apply step_stopped with (payload := payload).
Qed.

Lemma concat_blob_parts (chunks : list Blob) :
  concat (map part_bytes (map PartBlob chunks)) = concat (map blob_bytes chunks).
Proof.
  induction chunks as [| c chunks IH]; simpl; [reflexivity | now rewrite IH].
Qed.

(** C6. On a host with the File API's Blob constructor, a session whose
    chunks arrive in the order [before ++ after] (the stop button clicked in
    between) stages the file "recording.wav" of type audio/wav whose bytes are
    the chunks' bytes concatenated in that order, and raises no error.  With
    no chunk at all the staged file is the empty one. *)
Theorem recorded_clip_is_concatenation
    (host : Host) (w : World) (n tracks : nat) (before after : list Blob) :
  file_api host ->
  pendingMic w = S n ->
  loading w = false ->
  let w' := run host w (session_events (length (recorders w)) tracks before after) in
  audioFile w'
    = Some (mkFile (concat (map blob_bytes (before ++ after))) "recording.wav" "audio/wav") /\
  error w' = error w.
Proof.
  intros Hapi Hp Hl.
  rewrite (run_session host w n tracks before after
             (concat (map blob_bytes (before ++ after)))
             (concat (map blob_bytes (before ++ after))) Hp Hl).
  - split; reflexivity.
  - rewrite Hapi. now rewrite concat_blob_parts.
  - rewrite Hapi. simpl. now rewrite app_nil_r.
Qed.

Lemma recorded_clip_is_concatenation_witness :
  file_api standard_host /\
  pendingMic requesting_world = 1 /\
  loading requesting_world = false /\
  audioFile (run standard_host requesting_world (session_events 0 1 [chunk_a] [chunk_b]))
    = Some (mkFile [x01; x02; x03]%byte "recording.wav" "audio/wav") /\
  audioFile (run standard_host requesting_world (session_events 0 1 [] []))
    = Some (mkFile [] "recording.wav" "audio/wav").
Proof.
  assert (Hapi : file_api standard_host) by (intros parts; reflexivity).
  split; [exact Hapi |]. split; [reflexivity |]. split; [reflexivity |]. split.
  - exact (proj1 (recorded_clip_is_concatenation standard_host requesting_world 0 1
                    [chunk_a] [chunk_b] Hapi eq_refl eq_refl)).
  - exact (proj1 (recorded_clip_is_concatenation standard_host requesting_world 0 1
                    [] [] Hapi eq_refl eq_refl)).
Defined.

(** ** Release of the microphone stream *)

Lemma step_media_change (host : Host) (w : World) (e : Event) :
  media_change w (step host w e).
Proof.
  destruct e.
  2: { destruct (pendingMic w) as [| n] eqn:Hp.
       - unfold step. rewrite Hp. now apply media_same.
       - rewrite (step_granted host w n tracks Hp). now apply (media_open _ _ tracks). }
  all: destruct w; run_handler; repeat case_match; simpl in *; simplify_eq;
    first [ now apply media_same
          | now eapply media_stop; eauto
          | eapply media_stopped; eauto; simpl; now auto ].
Qed.

Lemma step_released (host : Host) (k r tracks : nat) (w : World) (e : Event) :
  released k r tracks w -> released k r tracks (step host w e).
Proof.
  intros (Hr & Hs & Hu). unfold released.
  destruct (step_media_change host w e)
    as [Es Er | c s q Hc Es Er | tr Es Er | r0 s Hc Er Es]; rewrite Er.
  - rewrite Es. auto.
  - assert (c <> r) by (intros ->; congruence).
    rewrite Es, list_lookup_insert_ne by assumption.
    split; [assumption |]. split; [assumption |].
    intros r' x Hx Hk. apply list_lookup_insert_Some in Hx as [(-> & <- & _) | (_ & Hx)].
    + exfalso. eauto.
    + eauto.
  - rewrite Es. pose proof (lookup_lt_Some _ _ _ Hs) as Hlt.
    split; [now apply lookup_app_l_Some |]. split; [now apply lookup_app_l_Some |].
    intros r' x Hx Hk. apply lookup_app_Some in Hx as [Hx | (_ & Hx)]; [eauto |].
    apply list_lookup_singleton_Some in Hx as [_ <-]. simpl in Hk. lia.
  - assert (r0 <> r) by (intros ->; congruence).
    assert (s <> k) by (intros ->; eauto).
    rewrite list_lookup_insert_ne by assumption.
    split; [assumption |]. split.
    + destruct Es as [-> | ->]; [assumption |].
      now rewrite list_lookup_alter_ne.
    + intros r' x Hx Hk. apply list_lookup_insert_Some in Hx as [(-> & <- & _) | (_ & Hx)].
      * exfalso. eauto.
      * eauto.
Qed.

Lemma run_released (host : Host) (k r tracks : nat) (events : list Event) (w : World) :
  released k r tracks w -> released k r tracks (run host w events).
Proof.
  revert w. induction events as [| e events IH]; intros w H; simpl.
  - exact H.
  - apply IH, step_released, H.
Qed.

Lemma step_recorders_wf (host : Host) (w : World) (e : Event) :
  recorders_wf w -> recorders_wf (step host w e).
Proof.
  unfold recorders_wf. intros Hwf.
  destruct (step_media_change host w e)
    as [Es Er | c s q Hc Es Er | tr Es Er | r0 s Hc Er Es]; rewrite Er.
  - rewrite Es. exact Hwf.
  - rewrite Es. intros r x Hx.
    apply list_lookup_insert_Some in Hx as [(_ & <- & _) | (_ & Hx)]; [| eauto].
    apply (Hwf _ _ Hc).
  - rewrite Es, length_app. simpl. intros r x Hx.
    apply lookup_app_Some in Hx as [Hx | (_ & Hx)].
    + apply Hwf in Hx. lia.
    + apply list_lookup_singleton_Some in Hx as [_ <-]. simpl. lia.
  - assert (El : length (streams (step host w e)) = length (streams w))
      by (destruct Es as [-> | ->]; [reflexivity | apply length_alter]).
    rewrite El. intros r x Hx.
    apply list_lookup_insert_Some in Hx as [(_ & <- & _) | (_ & Hx)]; [| eauto].
    apply (Hwf _ _ Hc).
Qed.

(** In every state the component reaches, each recorder records a stream
    that exists. *)
Lemma reachable_recorders_wf (host : Host) (w : World) :
  reachable host w -> recorders_wf w.
Proof.
  intros [events ->].
  assert (H : forall w0, recorders_wf w0 -> recorders_wf (run host w0 events)).
  { induction events as [| e events IH]; intros w0 H0; simpl; [exact H0 |].
    apply IH, step_recorders_wf, H0. }
  apply H. intros r x Hx. simpl in Hx. rewrite lookup_nil in Hx. discriminate.
Qed.

(** C1, as the code has it.  The stream is released by the recorder's [stop]
    handler, after the clip has been built.  When both constructors return,
    the session that [stopRecording] ended has [stop()] called exactly once on
    each track of its stream when its [stop] event is delivered, and no later
    event calls it again. *)
Theorem stop_releases_stream_once
    (host : Host) (w : World) (n tracks : nat) (before after : list Blob)
    (payload content : list byte) :
  recorders_wf w ->
  pendingMic w = S n ->
  loading w = false ->
  process_blob_parts host (map PartBlob (before ++ after)) = Some payload ->
  process_blob_parts host [PartBlob (mkBlob payload "audio/wav")] = Some content ->
  let w' := run host w (session_events (length (recorders w)) tracks before after) in
  forall later : list Event,
    streams (run host w' later) !! length (streams w) = Some (replicate tracks 1).
Proof.
  intros Hwf Hp Hl Hb Hf w' later.
  assert (Hrel : released (length (streams w)) (length (recorders w)) tracks w').
  { subst w'. rewrite (run_session host w n tracks before after payload content Hp Hl Hb Hf).
    unfold released. simpl. split; [apply lookup_snoc_last |].
    split; [apply lookup_snoc_last |].
    intros r' x Hx Hk. apply lookup_app_Some in Hx as [Hx | (Hge & Hx)].
    - apply Hwf in Hx. lia.
    - apply lookup_lt_Some in Hx. simpl in Hx. lia. }
  apply (run_released host _ _ _ later) in Hrel. apply Hrel.
Qed.

Lemma stop_releases_stream_once_witness :
  recorders_wf requesting_world /\
  pendingMic requesting_world = 1 /\
  loading requesting_world = false /\
  process_blob_parts standard_host (map PartBlob ([chunk_a] ++ [chunk_b]))
    = Some [x01; x02; x03]%byte /\
  process_blob_parts standard_host [PartBlob (mkBlob [x01; x02; x03]%byte "audio/wav")]
    = Some [x01; x02; x03]%byte /\
  streams (run standard_host
             (run standard_host requesting_world (session_events 0 1 [chunk_a] [chunk_b]))
             [ClickRecord; MicGranted 2; ClickRecord; RecorderStopped 1]) !! 0
    = Some [1].
Proof.
  assert (Hwf : recorders_wf requesting_world)
    by (intros r x Hx; vm_compute in Hx; discriminate Hx).
  split; [exact Hwf |].
  split; [reflexivity |]. split; [reflexivity |].
  split; [reflexivity |]. split; [reflexivity |].
  exact (stop_releases_stream_once standard_host requesting_world 0 1
           [chunk_a] [chunk_b] [x01; x02; x03]%byte [x01; x02; x03]%byte
           Hwf eq_refl eq_refl eq_refl eq_refl
           [ClickRecord; MicGranted 2; ClickRecord; RecorderStopped 1]).
Defined.

(** C1 as stated fails: when building the clip throws, the [stop] handler
    ends before the release.  The recorder is inactive, nothing is staged,
    the track of the session's stream has never been stopped, and neither a
    further [stopRecording] nor the next recording stops it. *)
Lemma stream_not_released_when_finalization_fails :
  recorders failed_finalization_world = [mkRecorder 0 Inactive false] /\
  audioFile failed_finalization_world = None /\
  streams failed_finalization_world = [[0]] /\
  streams (dispatch (stopRecording (bounded_host 2)) failed_finalization_world) = [[0]] /\
  streams (run (bounded_host 2) failed_finalization_world [ClickRecord; MicGranted 1])
    = [[0]; [0]].
Proof. repeat split. Qed.

(** A second start while the first permission request is still pending
    gives two sessions; the reference then holds the second recorder only,
    and the first session's recorder is never stopped nor its stream
    released. *)
Lemma overlapping_sessions_leave_first_stream_live :
  let w := run standard_host initial_world
             [ClickRecord; ClickRecord; MicGranted 1; MicGranted 1;
              ClickRecord; RecorderStopped 1] in
  isRecording w = false /\
  recorders w = [mkRecorder 0 Recording false; mkRecorder 1 Inactive false] /\
  streams w = [[0]; [1]].
Proof. repeat split. Qed.


(** * Further properties of the consultation component *)

(** ** Microphone permission *)

(** X1. When the permission request is refused, [startRecording] shows
    "Error accessing microphone: " followed by the error's message and keeps
    nothing of the attempt: no stream, no recorder, the recording flag, the
    reference, the chunks and the staged clip are what they were. *)
Theorem denied_permission_retains_no_session
    (host : Host) (w : World) (n : nat) (err : Exn) :
  pendingMic w = S n ->
  step host w (MicDenied err)
  = set_error (Some (String.append "Error accessing microphone: " (exn_message err)))
      (set_pendingMic n w).
Proof.
  intros Hp. unfold step. rewrite Hp. reflexivity.
Qed.

Lemma denied_permission_retains_no_session_witness :
  pendingMic requesting_world = 1 /\
  error (step standard_host requesting_world
           (MicDenied (mkExn "NotAllowedError" "Permission denied" None)))
    = Some "Error accessing microphone: Permission denied" /\
  recorders (step standard_host requesting_world
               (MicDenied (mkExn "NotAllowedError" "Permission denied" None))) = [] /\
  isRecording (step standard_host requesting_world
                 (MicDenied (mkExn "NotAllowedError" "Permission denied" None))) = false.
Proof.
  split; [reflexivity |].
  rewrite (denied_permission_retains_no_session standard_host requesting_world 0
             (mkExn "NotAllowedError" "Permission denied" None) eq_refl).
  repeat split.
Defined.

(** ** File selection *)





(** ** The requests that are sent *)

Lemma staged_form_shape (w : World) :
  consult_disabled w = false -> request_shape (staged_form w).
Proof.
  unfold consult_disabled, staged_form, request_shape. intros H.
  apply orb_false_elim in H as [_ H].
  destruct (audioFile w) as [a |], (imageFile w) as [i |]; simpl in *.
  - right. right. eauto.
  - left. eauto.
  - right. left. eauto.
  - discriminate.
Qed.

Lemma step_requests (host : Host) (w : World) (e : Event) :
  requests (step host w e) = requests w \/
  consult_disabled w = false /\ requests (step host w e) = requests w ++ [staged_form w].
Proof.
  destruct e.
  8: { destruct (consult_disabled w) eqn:Hd.
       - left. unfold step. now rewrite Hd.
       - right. split; [reflexivity |]. apply (click_consult_enabled host w Hd). }
  all: left; destruct w; run_handler; repeat case_match; simpl in *; simplify_eq; reflexivity.
Qed.

(** X3. Every request the component ever sends to the consultation endpoint
    carries at least one part: an [audio] part, an [image] part, or an [audio]
    part followed by an [image] part.  An empty multipart body is never
    sent. *)
Theorem requests_are_never_empty (host : Host) (w : World) :
  reachable host w -> Forall request_shape (requests w).
Proof.
  intros [events ->].
  assert (H : forall w0, Forall request_shape (requests w0) ->
                         Forall request_shape (requests (run host w0 events))).
  { induction events as [| e events IH]; intros w0 H0; [exact H0 |].
    apply IH. destruct (step_requests host w0 e) as [-> | [Hd ->]]; [exact H0 |].
    apply Forall_app. split; [exact H0 |].
    apply Forall_singleton, staged_form_shape, Hd. }
  apply H. constructor.
Qed.

Lemma requests_are_never_empty_witness :
  reachable standard_host submitting_world /\
  Forall request_shape (requests submitting_world).
Proof.
  assert (Hs : reachable standard_host submitting_world)
    by (exists [ImageUpload (Some rash_png); ClickConsult]; reflexivity).
  split; [exact Hs |].
  exact (requests_are_never_empty standard_host submitting_world Hs).
Defined.

(** ** Replies *)

(** X4. Whatever a reply carries as response audio (nothing, a valid payload,
    a malformed one, one the host cannot turn into a blob), its
    [transcription] and [analysis] replace the displayed texts, [loading] goes
    back to false, the request is no longer pending, and the staged files stay
    staged: a successful consultation does not clear its inputs. *)
Theorem reply_replaces_texts_and_keeps_inputs
    (host : Host) (w : World) (n : nat) (data : ConsultationReply) :
  pendingPosts w = S n ->
  let w' := step host w (PostResolved data) in
  transcription w' = data_transcription data /\
  imageAnalysis w' = data_analysis data /\
  loading w' = false /\
  pendingPosts w' = n /\
  audioFile w' = audioFile w /\ imageFile w' = imageFile w /\
  requests w' = requests w.
Proof.
  intros Hp. unfold step. rewrite Hp. destruct w, data as [t a p].
  run_handler. repeat case_match; simpl in *; simplify_eq; repeat split.
Qed.

Lemma reply_replaces_texts_and_keeps_inputs_witness :
  pendingPosts submitting_world = 1 /\
  transcription (step standard_host submitting_world
                   (PostResolved (mkReply None (Some "Possible contact dermatitis")
                                    (Some "not*base64")))) = None /\
  imageAnalysis (step standard_host submitting_world
                   (PostResolved (mkReply None (Some "Possible contact dermatitis")
                                    (Some "not*base64"))))
    = Some "Possible contact dermatitis" /\
  imageFile (step standard_host submitting_world
               (PostResolved (mkReply None (Some "Possible contact dermatitis")
                                (Some "not*base64")))) = Some rash_png.
Proof.
  split; [reflexivity |].
  destruct (reply_replaces_texts_and_keeps_inputs standard_host submitting_world 0
              (mkReply None (Some "Possible contact dermatitis") (Some "not*base64"))
              eq_refl)
    as (Ht & Ha & _ & _ & _ & Hi & _).
  split; [exact Ht |]. split; [exact Ha | exact Hi].
Defined.

Lemma step_decodable_reply
    (host : Host) (w : World) (n : nat) (t a : option string) (p bin : string) :
  file_api host ->
  pendingPosts w = S n ->
  p <> "" ->
  Base64.atob p = Some bin ->
  atobCalls (step host w (PostResolved (mkReply t a (Some p)))) = atobCalls w ++ [p] /\
  objectURLs (step host w (PostResolved (mkReply t a (Some p))))
    = objectURLs w ++ [mkBlob (Base64.char_codes bin) "audio/mpeg"] /\
  responseAudio (step host w (PostResolved (mkReply t a (Some p))))
    = Some (length (objectURLs w)) /\
  error (step host w (PostResolved (mkReply t a (Some p)))) = error w.
Proof.
  intros Hapi Hp Hne Hdec. unfold step. rewrite Hp.
  destruct p as [| c p]; [congruence |].
  run_handler. rewrite Hdec. simpl. rewrite Hapi. simpl.
  rewrite app_nil_r. repeat split.
Qed.

(** X5. A reply whose [response_audio] is a non-empty string that [atob]
    decodes makes exactly one [atob] call and, on a host with the File API's
    Blob constructor, exactly one object URL: that of an audio/mpeg blob whose
    bytes are the character codes of the decoded string.  [responseAudio]
    refers to the new URL and no error is displayed for it. *)
Theorem decodable_response_audio_creates_resource
    (host : Host) (w : World) (n : nat) (t a : option string) (p bin : string) :
  file_api host ->
  pendingPosts w = S n ->
  p <> "" ->
  Base64.atob p = Some bin ->
  let w' := step host w (PostResolved (mkReply t a (Some p))) in
  atobCalls w' = atobCalls w ++ [p] /\
  objectURLs w' = objectURLs w ++ [mkBlob (Base64.char_codes bin) "audio/mpeg"] /\
  responseAudio w' = Some (length (objectURLs w)) /\
  error w' = error w.
Proof.
  intros Hapi Hp Hne Hdec. now apply (step_decodable_reply host w n).
Qed.

Lemma decodable_response_audio_creates_resource_witness :
  file_api standard_host /\
  pendingPosts submitting_world = 1 /\
  "QUJD" <> "" /\
  Base64.atob "QUJD" = Some "ABC" /\
  objectURLs (step standard_host submitting_world
                (PostResolved (mkReply None (Some "Possible contact dermatitis")
                                 (Some "QUJD"))))
    = [mkBlob [x41; x42; x43]%byte "audio/mpeg"].
Proof.
  assert (Hapi : file_api standard_host) by (intros parts; reflexivity).
  assert (Hne : "QUJD" <> "") by discriminate.
  split; [exact Hapi |]. split; [reflexivity |]. split; [exact Hne |].
  split; [reflexivity |].
  destruct (decodable_response_audio_creates_resource standard_host submitting_world 0
              None (Some "Possible contact dermatitis") "QUJD" "ABC"
              Hapi eq_refl Hne eq_refl)
    as (_ & Hu & _).
  exact Hu.
Defined.

(** How one event changes the decode log, the URL store and the reference
    to it: not at all, or by the decode of one non-empty payload. *)
Lemma step_decodes (host : Host) (w : World) (e : Event) :
  file_api host ->
  (atobCalls (step host w e) = atobCalls w /\
   objectURLs (step host w e) = objectURLs w /\
   responseAudio (step host w e) = responseAudio w) \/
  exists p,
    p <> "" /\
    atobCalls (step host w e) = atobCalls w ++ [p] /\
    match decode_blob p with
    | Some b =>
        objectURLs (step host w e) = objectURLs w ++ [b] /\
        responseAudio (step host w e) = Some (length (objectURLs w))
    | None =>
        objectURLs (step host w e) = objectURLs w /\
        responseAudio (step host w e) = responseAudio w
    end.
Proof.
  intros Hapi. destruct e.
  9: { destruct (pendingPosts w) as [| n] eqn:Hp.
       - left. unfold step. rewrite Hp. repeat split.
       - destruct data as [t a [[| c p] |]].
         + left. unfold step. rewrite Hp. repeat split.
         + right. exists (String c p). split; [discriminate |].
           unfold decode_blob. destruct (Base64.atob (String c p)) as [bin |] eqn:Hdec.
           * assert (Hne : String c p <> "") by discriminate.
             destruct (step_decodable_reply host w n t a (String c p) bin Hapi Hp Hne Hdec)
               as (H1 & H2 & H3 & _).
             repeat split; assumption.
           * unfold step. rewrite Hp. run_handler. rewrite Hdec. simpl. repeat split.
         + left. unfold step. rewrite Hp. repeat split. }
  all: left; destruct w; run_handler; repeat case_match; simpl in *; simplify_eq;
    repeat split.
Qed.

(** ** The playback reference and the URL store *)

Lemma step_object_urls (host : Host) (w : World) (e : Event) :
  objectURLs (step host w e) = objectURLs w /\
  responseAudio (step host w e) = responseAudio w \/
  exists b,
    objectURLs (step host w e) = objectURLs w ++ [b] /\
    responseAudio (step host w e) = Some (length (objectURLs w)).
Proof.
  destruct w. destruct e; run_handler; repeat case_match; simpl in *;
    simplify_eq; simpl in *; try (left; split; reflexivity).
  right. eexists. split; reflexivity.
Qed.

(** X6. In every state the component reaches, [responseAudio] is null
    exactly as long as no object URL has been made, and otherwise refers to
    the newest URL of the store: the reference never dangles and never points
    at a superseded URL. *)
Theorem response_audio_is_newest_url (host : Host) (w : World) :
  reachable host w ->
  match responseAudio w with
  | Some k => length (objectURLs w) = S k
  | None => objectURLs w = []
  end.
Proof.
  intros [events ->].
  assert (H : forall w0,
             match responseAudio w0 with
             | Some k => length (objectURLs w0) = S k
             | None => objectURLs w0 = []
             end ->
             match responseAudio (run host w0 events) with
             | Some k => length (objectURLs (run host w0 events)) = S k
             | None => objectURLs (run host w0 events) = []
             end).
  { induction events as [| e events IH]; intros w0 H0; [exact H0 |].
    apply IH. destruct (step_object_urls host w0 e) as [[-> ->] | (b & -> & ->)].
    - exact H0.
    - rewrite length_app. simpl. lia. }
  apply H. reflexivity.
Qed.

Lemma response_audio_is_newest_url_witness :
  reachable standard_host two_replies_with_audio /\
  responseAudio two_replies_with_audio = Some 1 /\
  length (objectURLs two_replies_with_audio) = 2.
Proof.
  assert (Hr : reachable standard_host two_replies_with_audio).
  { exists [ImageUpload (Some rash_png); ClickConsult;
            PostResolved (mkReply None (Some "Possible contact dermatitis") (Some "QUJD"));
            ClickConsult;
            PostResolved (mkReply None (Some "Possible contact dermatitis") (Some "REVG"))].
    reflexivity. }
  split; [exact Hr |]. split; [reflexivity |].
  exact (response_audio_is_newest_url standard_host two_replies_with_audio Hr).
Defined.

(** X7. On a host with the File API's Blob constructor, in every state the
    component reaches: [atob] has never been called with the empty string,
    and the URL store holds, in order, the blobs of exactly those payloads
    passed to [atob] that were valid base64; a malformed payload leaves no
    URL behind. *)
Theorem object_urls_are_the_decoded_payloads (host : Host) (w : World) :
  file_api host ->
  reachable host w ->
  Forall (fun p => p <> "") (atobCalls w) /\
  objectURLs w = omap decode_blob (atobCalls w).
Proof.
  intros Hapi [events ->].
  assert (H : forall w0,
             Forall (fun p => p <> "") (atobCalls w0) /\
             objectURLs w0 = omap decode_blob (atobCalls w0) ->
             Forall (fun p => p <> "") (atobCalls (run host w0 events)) /\
             objectURLs (run host w0 events)
               = omap decode_blob (atobCalls (run host w0 events))).
  { induction events as [| e events IH]; intros w0 [Hf Ho]; [now split |].
    apply IH.
    destruct (step_decodes host w0 e Hapi) as [(-> & -> & _) | (p & Hne & -> & Hd)].
    - now split.
    - split.
      + apply Forall_app. split; [exact Hf |]. now apply Forall_singleton.
      + rewrite omap_app. simpl.
        destruct (decode_blob p) as [b |]; destruct Hd as [-> _]; rewrite Ho.
        * reflexivity.
        * now rewrite app_nil_r. }
  apply H. split; [constructor | reflexivity].
Qed.

Lemma object_urls_are_the_decoded_payloads_witness :
  file_api standard_host /\
  reachable standard_host three_replies /\
  atobCalls three_replies = ["QUJD"; "not*base64"; "REVG"] /\
  objectURLs three_replies = omap decode_blob (atobCalls three_replies).
Proof.
  assert (Hapi : file_api standard_host) by (intros parts; reflexivity).
  assert (Hr : reachable standard_host three_replies).
  { exists [ImageUpload (Some rash_png); ClickConsult;
            PostResolved (mkReply None None (Some "QUJD"));
            ClickConsult;
            PostResolved (mkReply None None (Some "not*base64"));
            ClickConsult;
            PostResolved (mkReply None None (Some "REVG"))].
    reflexivity. }
  split; [exact Hapi |]. split; [exact Hr |]. split; [reflexivity |].
  exact (proj2 (object_urls_are_the_decoded_payloads standard_host three_replies Hapi Hr)).
Defined.

(** ** The recording flag and the recorders *)

Lemma onstop_keeps_capture (host : Host) (s : nat) (w : World) :
  isRecording (dispatch (onstop host s) w) = isRecording w /\
  mediaRecorderRef (dispatch (onstop host s) w) = mediaRecorderRef w /\
  recorders (dispatch (onstop host s) w) = recorders w.
Proof.
  destruct w. run_handler. repeat case_match; simpl in *; simplify_eq; repeat split.
Qed.

Lemma step_recording_flag (host : Host) (w : World) (e : Event) :
  isRecording w = current_recorder_recording w ->
  isRecording (step host w e) = current_recorder_recording (step host w e).
Proof.
  intros H. destruct e.
  - (* the record button *)
    unfold step. destruct (loading w); [exact H |].
    destruct (isRecording w) eqn:Hf.
    + unfold current_recorder_recording in H.
      destruct (mediaRecorderRef w) as [c |] eqn:Hc; [| discriminate H].
      destruct (recorders w !! c) as [[s [|] q] |] eqn:Hl; try discriminate H.
      unfold dispatch, stopRecording, bind, get, recorder_stop, update.
      rewrite Hc. simpl. rewrite Hl. simpl.
      unfold current_recorder_recording. simpl. rewrite Hc.
      rewrite list_lookup_insert_eq by (eapply lookup_lt_Some; exact Hl).
      reflexivity.
    + unfold current_recorder_recording in *. destruct w. simpl in *. congruence.
  - (* permission granted *)
    destruct (pendingMic w) as [| n] eqn:Hp.
    + unfold step. rewrite Hp. exact H.
    + rewrite (step_granted host w n tracks Hp).
      unfold current_recorder_recording, session_world. simpl.
      now rewrite lookup_snoc_last.
  - destruct w. run_handler. repeat case_match; simpl in *; simplify_eq; exact H.
  - destruct w. run_handler. repeat case_match; simpl in *; simplify_eq; exact H.
  - (* a recorder's stop event *)
    unfold step.
    destruct (recorders w !! recorder) as [[s [|] [|]] |] eqn:Hl; try exact H.
    destruct (onstop_keeps_capture host s
                (set_recorders (<[recorder := mkRecorder s Inactive false]> (recorders w)) w))
      as (Hf & Hc & Hr).
    unfold current_recorder_recording. rewrite Hf, Hc, Hr.
    unfold current_recorder_recording in H.
    destruct w. simpl in *. rewrite H.
    destruct mediaRecorderRef0 as [c |]; [| reflexivity].
    destruct (decide (recorder = c)) as [-> | Hne].
    + rewrite list_lookup_insert_eq by (eapply lookup_lt_Some; exact Hl).
      now rewrite Hl.
    + now rewrite list_lookup_insert_ne.
  - destruct w. run_handler. repeat case_match; simpl in *; simplify_eq; exact H.
  - destruct w. run_handler. repeat case_match; simpl in *; simplify_eq; exact H.
  - destruct w. run_handler. repeat case_match; simpl in *; simplify_eq; exact H.
  - destruct w. run_handler. repeat case_match; simpl in *; simplify_eq; exact H.
  - destruct w. run_handler. repeat case_match; simpl in *; simplify_eq; exact H.
Qed.

(** X8. In every state the component reaches, on every host, as long as a
    recorder stops only through [stop()] (the events of [step]; a recorder
    that stops on its own because its tracks ended is not among them), the
    [isRecording] flag (and with it the label and the action of the record
    button) is set exactly when the recorder the component refers to is
    recording.  So a click on "Stop Recording" always finds a recording
    recorder: [stopRecording] then returns without an exception, also on a
    host whose [stop()] throws on an inactive recorder. *)
Theorem recording_flag_matches_recorder (host : Host) (w : World) :
  reachable host w ->
  isRecording w = current_recorder_recording w /\
  (isRecording w = true -> fst (stopRecording host w) = Return tt).
Proof.
  intros [events ->].
  assert (H : forall w0, isRecording w0 = current_recorder_recording w0 ->
              isRecording (run host w0 events)
              = current_recorder_recording (run host w0 events)).
  { induction events as [| e events IH]; intros w0 H0; [exact H0 |].
    apply IH, step_recording_flag, H0. }
  specialize (H initial_world eq_refl). split; [exact H |].
  intros Hf. rewrite Hf in H. unfold current_recorder_recording in H.
  destruct (mediaRecorderRef (run host initial_world events)) as [c |] eqn:Hc;
    [| discriminate H].
  destruct (recorders (run host initial_world events) !! c) as [[s [|] q] |] eqn:Hl;
    try discriminate H.
  unfold stopRecording, bind, get, recorder_stop, update.
  rewrite Hc. simpl. rewrite Hl. reflexivity.
Qed.

Lemma recording_flag_matches_recorder_witness :
  reachable legacy_host (run legacy_host initial_world [ClickRecord; MicGranted 1]) /\
  isRecording (run legacy_host initial_world [ClickRecord; MicGranted 1]) = true /\
  fst (stopRecording legacy_host (run legacy_host initial_world [ClickRecord; MicGranted 1]))
    = Return tt.
Proof.
  assert (Hr : reachable legacy_host (run legacy_host initial_world [ClickRecord; MicGranted 1]))
    by (exists [ClickRecord; MicGranted 1]; reflexivity).
  split; [exact Hr |]. split; [reflexivity |].
  exact (proj2 (recording_flag_matches_recorder legacy_host _ Hr) eq_refl).
Defined.

Lemma replicate_succ (n : nat) : map S (replicate n 0) = replicate n 1.
Proof. induction n; simpl; congruence. Qed.

Lemma step_media_paired (host : Host) (w : World) (e : Event) :
  media_paired w -> media_paired (step host w e).
Proof.
  intros [Hlen Hinv]. unfold media_paired.
  destruct (step_media_change host w e)
    as [Es Er | c s q Hc Es Er | tr0 Es Er | r0 s Hc Er Es]; rewrite Er.
  - rewrite Es. split; assumption.
  - rewrite Es, length_insert. split; [assumption |].
    intros i x tr Hx Ht.
    apply list_lookup_insert_Some in Hx as [(-> & <- & _) | (_ & Hx)]; [| eauto].
    destruct (Hinv _ _ _ Hc Ht) as [Hs [Hz | [Hh _]]]; [| discriminate Hh].
    simpl in *. split; [exact Hs | now left].
  - rewrite Es, !length_app. simpl. split; [lia |].
    intros i x tr Hx Ht.
    apply lookup_app_Some in Hx as [Hx | (Hge & Hx)].
    + pose proof (lookup_lt_Some _ _ _ Hx) as Hlt.
      rewrite lookup_app_l in Ht by lia. eauto.
    + apply list_lookup_singleton_Some in Hx as [Hi <-].
      assert (i = length (recorders w)) as -> by lia.
      rewrite Hlen, lookup_snoc_last in Ht. simplify_eq. simpl.
      split; [congruence |]. left. now rewrite length_replicate.
  - assert (Hs : s = r0).
    { destruct (lookup_lt_is_Some_2 (streams w) r0) as [tr Ht].
      - rewrite <- Hlen. eapply lookup_lt_Some. exact Hc.
      - apply (Hinv _ _ _ Hc Ht). }
    subst s. rewrite length_insert.
    assert (El : length (streams (step host w e)) = length (streams w))
      by (destruct Es as [-> | ->]; [reflexivity | apply length_alter]).
    rewrite El. split; [assumption |].
    intros i x tr Hx Ht.
    apply list_lookup_insert_Some in Hx as [(-> & <- & _) | (Hne & Hx)].
    + simpl. destruct Es as [Es | Es]; rewrite Es in Ht.
      * destruct (Hinv _ _ _ Hc Ht) as [_ [Hz | [Hh _]]]; [| discriminate Hh].
        split; [reflexivity | now left].
      * rewrite list_lookup_alter_eq in Ht.
        destruct (streams w !! i) as [tr1 |] eqn:Ht1; [| discriminate Ht].
        simpl in Ht. simplify_eq.
        destruct (Hinv _ _ _ Hc Ht1) as [_ [Hz | [Hh _]]]; [| discriminate Hh].
        split; [reflexivity |]. right. split; [reflexivity |].
        rewrite Hz, replicate_succ, !length_replicate. reflexivity.
    + destruct Es as [Es | Es]; rewrite Es in Ht.
      * eauto.
      * rewrite list_lookup_alter_ne in Ht by assumption. eauto.
Qed.

Lemma reachable_media_paired (host : Host) (w : World) :
  reachable host w -> media_paired w.
Proof.
  intros [events ->].
  assert (H : forall w0, media_paired w0 -> media_paired (run host w0 events)).
  { induction events as [| e events IH]; intros w0 H0; [exact H0 |].
    apply IH, step_media_paired, H0. }
  apply H. split; [reflexivity |].
  intros i x tr Hx. simpl in Hx. rewrite lookup_nil in Hx. discriminate.
Qed.

(** X9. In every state the component reaches, on every host, as long as a
    recorder stops only through [stop()] (the events of [step]), each recorder
    has a stream of its own (the [i]-th recorder records the [i]-th stream),
    no track has had [stop()] called on it more than once, and every track of
    a recorder that is recording or whose [stop] event is still to come is
    live: a stream is never released early and never released twice. *)
Theorem tracks_are_stopped_at_most_once (host : Host) (w : World) :
  reachable host w ->
  length (recorders w) = length (streams w) /\
  forall i x tr,
    recorders w !! i = Some x -> streams w !! i = Some tr ->
    rec_stream x = i /\
    Forall (fun stops => stops <= 1) tr /\
    (holds_stream x = true -> Forall (fun stops => stops = 0) tr).
Proof.
  intros Hr. destruct (reachable_media_paired host w Hr) as [Hlen Hinv].
  split; [exact Hlen |]. intros i x tr Hx Ht.
  destruct (Hinv i x tr Hx Ht) as [Hs [Hz | [Hh Hz]]].
  - split; [exact Hs |]. rewrite Hz. split.
    + apply Forall_replicate. lia.
    + intros _. now apply Forall_replicate.
  - split; [exact Hs |]. split.
    + rewrite Hz. apply Forall_replicate. lia.
    + intros Hh'. congruence.
Qed.

Lemma tracks_are_stopped_at_most_once_witness :
  reachable standard_host recorded_world /\
  recorders recorded_world !! 0 = Some (mkRecorder 0 Inactive false) /\
  streams recorded_world !! 0 = Some [1] /\
  Forall (fun stops => stops <= 1) [1].
Proof.
  assert (Hr : reachable standard_host recorded_world).
  { exists [ClickRecord; MicGranted 1; DataAvailable 0 chunk_a; ClickRecord;
            DataAvailable 0 chunk_b; RecorderStopped 0].
    reflexivity. }
  split; [exact Hr |]. split; [reflexivity |]. split; [reflexivity |].
  destruct (tracks_are_stopped_at_most_once standard_host recorded_world Hr) as [_ H].
  exact (proj1 (proj2 (H 0 (mkRecorder 0 Inactive false) [1] eq_refl eq_refl))).
Defined.

(** * The decode of what the endpoint encodes *)

Import Base64Encoding.

(** Linear arithmetic with division and remainder by constants. *)
Ltac euclid := zify; Z.to_euclidean_division_equations; lia.

Lemma list_ind3 {A : Type} (P : list A -> Prop) :
  P [] -> (forall a, P [a]) -> (forall a b, P [a; b]) ->
  (forall a b c r, P r -> P (a :: b :: c :: r)) ->
  forall l, P l.
Proof.
  intros H0 H1 H2 H3. fix IH 1.
  intros [| a [| b [| c r]]]; [apply H0 | apply H1 | apply H2 |].
  apply H3, IH.
Qed.

Lemma char_of_sextet_spec (v : N) :
  (v < 64)%N ->
  Base64.sextet (char_of_sextet v) = Some v /\
  Base64.is_whitespace (char_of_sextet v) = false /\
  Base64.is_pad (char_of_sextet v) = false.
Proof.
  intros Hv.
  assert (E : forallb (fun n => sextet_checked (N.of_nat n)) (seq 0 64) = true)
    by (vm_compute; reflexivity).
  rewrite forallb_forall in E. specialize (E (N.to_nat v)).
  rewrite N2Nat.id in E. unfold sextet_checked in E.
  assert (Hin : In (N.to_nat v) (seq 0 64)) by (apply in_seq; lia).
  apply E in Hin. apply andb_prop in Hin as [Hin Hp]. apply andb_prop in Hin as [Hs Hw].
  destruct (Base64.sextet (char_of_sextet v)) as [u |]; [| discriminate].
  apply N.eqb_eq in Hs. subst u.
  repeat split; [now apply negb_true_iff in Hw | now apply negb_true_iff in Hp].
Qed.

Lemma sextets_of_octets_bound (l : list N) :
  Forall (fun b => (b < 256)%N) l -> Forall (fun v => (v < 64)%N) (sextets_of_octets l).
Proof.
  induction l as [| a | a b | a b c r IH] using list_ind3; intros H; simpl.
  - constructor.
  - inversion_clear H. repeat constructor; euclid.
  - inversion_clear H as [| ? ? Ha H']. inversion_clear H'. repeat constructor; euclid.
  - inversion_clear H as [| ? ? Ha H']. inversion_clear H' as [| ? ? Hb H''].
    inversion_clear H'' as [| ? ? Hc Hr].
    repeat (constructor; [euclid |]). now apply IH.
Qed.

Lemma octets_of_sextets (l : list N) :
  Forall (fun b => (b < 256)%N) l -> Base64.octets (sextets_of_octets l) = l.
Proof.
  induction l as [| a | a b | a b c r IH] using list_ind3; intros H; simpl.
  - reflexivity.
  - inversion_clear H. f_equal. euclid.
  - inversion_clear H as [| ? ? Ha H']. inversion_clear H'. repeat f_equal; euclid.
  - inversion_clear H as [| ? ? Ha H']. inversion_clear H' as [| ? ? Hb H''].
    inversion_clear H'' as [| ? ? Hc Hr].
    rewrite IH by assumption. repeat f_equal; euclid.
Qed.

Lemma sextets_of_octets_length (l : list N) :
  length (sextets_of_octets l) = (4 * length l + 2) / 3.
Proof.
  induction l as [| a | a b | a b c r IH] using list_ind3; simpl length.
  - reflexivity.
  - reflexivity.
  - reflexivity.
  - rewrite IH. euclid.
Qed.

Lemma sextets_of_chars (l : list N) :
  Forall (fun v => (v < 64)%N) l ->
  Base64.sextets (map char_of_sextet l) = Some l.
Proof.
  induction 1 as [| v l Hv _ IH]; simpl; [reflexivity |].
  destruct (char_of_sextet_spec v Hv) as [-> _]. now rewrite IH.
Qed.

Lemma chars_keep_filter (l : list N) :
  Forall (fun v => (v < 64)%N) l ->
  filter (fun c => negb (Base64.is_whitespace c)) (map char_of_sextet l)
  = map char_of_sextet l.
Proof.
  induction 1 as [| v l Hv _ IH]; [reflexivity |].
  rewrite map_cons, filter_cons.
  destruct (char_of_sextet_spec v Hv) as (_ & Hw & _).
  rewrite decide_True by (rewrite Hw; exact I). now rewrite IH.
Qed.

Lemma padding_cases (n : nat) :
  n mod 3 = 0 /\ padding n = [] \/
  n mod 3 = 1 /\ padding n = ["="%char; "="%char] \/
  n mod 3 = 2 /\ padding n = ["="%char].
Proof.
  unfold padding. pose proof (Nat.mod_upper_bound n 3).
  destruct (n mod 3) as [| [| [| k]]]; auto. lia.
Qed.

Lemma strip_padding_chars (cs : list ascii) (n : nat) :
  Forall (fun c => Base64.is_pad c = false) cs ->
  length cs = (4 * n + 2) / 3 ->
  Base64.strip_padding (cs ++ padding n) = cs.
Proof.
  intros Hcs Hlen. unfold Base64.strip_padding.
  destruct (padding_cases n) as [[Hn ->] | [[Hn ->] | [Hn ->]]].
  - rewrite app_nil_r. destruct (length cs mod 4 =? 0)%nat; [| reflexivity].
    destruct (rev cs) as [| p [| q r]] eqn:Hrev; try reflexivity.
    assert (Hp : Base64.is_pad p = false).
    { rewrite Forall_forall in Hcs. apply Hcs. apply list_elem_of_In, in_rev.
      rewrite Hrev. now left. }
    now rewrite Hp.
  - rewrite length_app, rev_app_distr. simpl length.
    replace ((length cs + 2) mod 4 =? 0)%nat with true
      by (symmetry; apply Nat.eqb_eq; rewrite Hlen; euclid).
    simpl. apply rev_involutive.
  - rewrite length_app, rev_app_distr. simpl length.
    replace ((length cs + 1) mod 4 =? 0)%nat with true
      by (symmetry; apply Nat.eqb_eq; rewrite Hlen; euclid).
    simpl. destruct (rev cs) as [| q r] eqn:Hrev.
    + apply (f_equal (@length ascii)) in Hrev. rewrite length_rev in Hrev.
      simpl in Hrev. exfalso. rewrite Hlen in Hrev. euclid.
    + assert (Hq : Base64.is_pad q = false).
      { rewrite Forall_forall in Hcs. apply Hcs. apply list_elem_of_In, in_rev.
        rewrite Hrev. now left. }
      rewrite Hq. change (rev r ++ [q]) with (rev (q :: r)).
      rewrite <- Hrev. apply rev_involutive.
Qed.

Lemma byte_of_ascii_of_N (b : byte) : byte_of_ascii (ascii_of_N (Byte.to_N b)) = b.
Proof. destruct b; reflexivity. Qed.

(** [atob] undoes the standard encoding. *)
Lemma atob_encode (bs : list byte) :
  Base64.atob (encode bs)
  = Some (string_of_list_ascii (map ascii_of_N (map Byte.to_N bs))).
Proof.
  assert (Hb : Forall (fun b => (b < 256)%N) (map Byte.to_N bs)).
  { apply Forall_forall. intros x Hx. apply list_elem_of_fmap in Hx as (b & -> & _).
    pose proof (Byte.to_N_bounded b). lia. }
  pose proof (sextets_of_octets_bound _ Hb) as Hv.
  unfold Base64.atob, encode. rewrite list_ascii_of_string_of_list_ascii.
  rewrite filter_app, chars_keep_filter by exact Hv.
  replace (filter (fun c => negb (Base64.is_whitespace c)) (padding (length bs)))
    with (padding (length bs))
    by (destruct (padding_cases (length bs)) as [[_ ->] | [[_ ->] | [_ ->]]]; reflexivity).
  assert (Hlen : length (map char_of_sextet (sextets_of_octets (map Byte.to_N bs)))
                 = (4 * length bs + 2) / 3)
    by (rewrite length_map, sextets_of_octets_length, length_map; reflexivity).
  rewrite strip_padding_chars.
  - replace (length (map char_of_sextet (sextets_of_octets (map Byte.to_N bs))) mod 4 =? 1)%nat
      with false
      by (symmetry; apply Nat.eqb_neq; rewrite Hlen; euclid).
    rewrite sextets_of_chars by exact Hv.
    now rewrite octets_of_sextets.
  - apply Forall_forall. intros c Hc. apply list_elem_of_fmap in Hc as (v & -> & Hin).
    rewrite Forall_forall in Hv. apply (char_of_sextet_spec v (Hv v Hin)).
  - exact Hlen.
Qed.

Lemma char_codes_of_bytes (bs : list byte) :
  Base64.char_codes (string_of_list_ascii (map ascii_of_N (map Byte.to_N bs))) = bs.
Proof.
  unfold Base64.char_codes. rewrite list_ascii_of_string_of_list_ascii.
  induction bs as [| b bs IH]; simpl; [reflexivity |].
  now rewrite byte_of_ascii_of_N, IH.
Qed.

Lemma encode_nonempty (b : byte) (bs : list byte) : encode (b :: bs) <> "".
Proof.
  unfold encode. destruct bs as [| b1 [| b2 bs]]; simpl; discriminate.
Qed.

(** X10. Decoding undoes the endpoint's encoding.  For every non-empty byte
    sequence, a reply whose [response_audio] is its standard padded base64
    encoding produces, on a host with the File API's Blob constructor, one
    object URL for an audio/mpeg blob holding exactly those bytes, to which
    [responseAudio] refers; no error is displayed. *)
Theorem encoded_response_audio_round_trips
    (host : Host) (w : World) (n : nat) (t a : option string) (bs : list byte) :
  file_api host ->
  pendingPosts w = S n ->
  bs <> [] ->
  let w' := step host w (PostResolved (mkReply t a (Some (encode bs)))) in
  decode_blob (encode bs) = Some (mkBlob bs "audio/mpeg") /\
  objectURLs w' = objectURLs w ++ [mkBlob bs "audio/mpeg"] /\
  responseAudio w' = Some (length (objectURLs w)) /\
  error w' = error w.
Proof.
  intros Hapi Hp Hne.
  assert (Hnz : encode bs <> "") by (destruct bs; [congruence | apply encode_nonempty]).
  destruct (step_decodable_reply host w n t a (encode bs) _ Hapi Hp Hnz (atob_encode bs))
    as (_ & Hu & Hr & He).
  rewrite char_codes_of_bytes in Hu. unfold decode_blob.
  rewrite atob_encode, char_codes_of_bytes. repeat split; assumption.
Qed.

Lemma encoded_response_audio_round_trips_witness :
  file_api standard_host /\
  pendingPosts submitting_world = 1 /\
  [xff; x00; x7f; x80]%byte <> [] /\
  encode [xff; x00; x7f; x80]%byte = "/wB/gA==" /\
  objectURLs (step standard_host submitting_world
                (PostResolved (mkReply None None (Some (encode [xff; x00; x7f; x80]%byte)))))
    = [mkBlob [xff; x00; x7f; x80]%byte "audio/mpeg"].
Proof.
  assert (Hapi : file_api standard_host) by (intros parts; reflexivity).
  assert (Hne : [xff; x00; x7f; x80]%byte <> []) by discriminate.
  split; [exact Hapi |]. split; [reflexivity |]. split; [exact Hne |].
  split; [reflexivity |].
  destruct (encoded_response_audio_round_trips standard_host submitting_world 0
              None None [xff; x00; x7f; x80]%byte Hapi eq_refl Hne)
    as (_ & Hu & _).
  exact Hu.
Defined.

(** * Text to speech *)

Lemma speech_step_ok (host : Host) (w : World) (s : TextToSpeech.Speech)
    (e : TextToSpeech.SpeechEvent) :
  TextToSpeech.speech_ok s -> TextToSpeech.speech_ok (TextToSpeech.speech_step host w s e).
Proof.
  unfold TextToSpeech.speech_ok. destruct s as [rq pn us pl ce]. simpl.
  intros (Hr & Hp & Hl).
  destruct e as [| | audio | err]; simpl.
  - destruct (Js.truthy (transcription w)) eqn:Ht; simpl; [| auto].
    split; [| split; [exact Hp | rewrite length_app; simpl; lia]].
    apply Forall_app. split; [exact Hr |]. now apply Forall_singleton.
  - destruct (Js.truthy (imageAnalysis w)) eqn:Ht; simpl; [| auto].
    split; [| split; [exact Hp | rewrite length_app; simpl; lia]].
    apply Forall_app. split; [exact Hr |]. now apply Forall_singleton.
  - destruct pn as [| pn]; simpl; [auto |].
    unfold TextToSpeech.handleTextToSpeech_resume, TextToSpeech.settle. simpl.
    destruct (Js.truthy audio); simpl; [| repeat split; [assumption .. | lia]].
    destruct (Base64.atob (to_string audio)); simpl;
      [| repeat split; [assumption .. | rewrite length_app; simpl; lia]].
    destruct (process_blob_parts host _); simpl.
    + split; [exact Hr |]. rewrite !length_app. simpl.
      split; [| lia]. rewrite Hp, seq_app. reflexivity.
    + repeat split; [assumption .. | rewrite length_app; simpl; lia].
  - destruct pn as [| pn]; simpl; [auto |].
    repeat split; [assumption .. | rewrite length_app; simpl; lia].
Qed.

(** X11. Text to speech, in every state the page reaches: speech is only
    requested for a non-empty displayed text and always in the language "en";
    every object URL made for speech is played exactly once, at the moment it
    is made, and none is played again; and each request ends in at most one
    of a played URL and an error on the console, so a failed synthesis never
    plays anything. *)
Theorem speech_is_played_once_or_logged
    (host : Host) (events : list TextToSpeech.PageEvent) :
  TextToSpeech.speech_ok
    (snd (TextToSpeech.page_run host (initial_world, TextToSpeech.initial_speech) events)).
Proof.
  assert (H : forall p, TextToSpeech.speech_ok (snd p) ->
              TextToSpeech.speech_ok (snd (TextToSpeech.page_run host p events))).
  { induction events as [| e events IH]; intros p Hp; [exact Hp |].
    apply IH. destruct e as [e | e]; simpl; [exact Hp |].
    now apply speech_step_ok. }
  apply H. unfold TextToSpeech.speech_ok. simpl. repeat split; [constructor | lia].
Qed.

(** * The symptom selector *)

Lemma includes_In (selected : list string) (symptom : string) :
  SymptomSelector.includes selected symptom = true <-> In symptom selected.
Proof.
  unfold SymptomSelector.includes. rewrite existsb_exists. split.
  - intros (x & Hx & He). apply String.eqb_eq in He. now subst.
  - intros H. exists symptom. split; [exact H | apply String.eqb_refl].
Qed.

Lemma In_remove (selected : list string) (symptom x : string) :
  In x (List.filter (fun s => negb (String.eqb s symptom)) selected)
  <-> In x selected /\ x <> symptom.
Proof.
  rewrite filter_In, negb_true_iff, String.eqb_neq. reflexivity.
Qed.

Lemma remove_absent (selected : list string) (symptom : string) :
  ~ In symptom selected ->
  List.filter (fun s => negb (String.eqb s symptom)) selected = selected.
Proof.
  induction selected as [| y l IH]; intros H; simpl; [reflexivity |].
  destruct (String.eqb_spec y symptom) as [-> | Hne]; simpl.
  - exfalso. apply H. now left.
  - rewrite IH; [reflexivity |]. intros Hin. apply H. now right.
Qed.

Lemma remove_present (selected : list string) (symptom : string) :
  NoDup selected -> In symptom selected ->
  Permutation
    (List.filter (fun s => negb (String.eqb s symptom)) selected ++ [symptom]) selected.
Proof.
  induction 1 as [| y l Hy Hl IH]; intros Hin; [contradiction |].
  simpl. destruct (String.eqb_spec y symptom) as [-> | Hne]; simpl.
  - rewrite remove_absent by (rewrite <- list_elem_of_In; exact Hy).
    symmetry. apply Permutation_cons_append.
  - constructor. apply IH. destruct Hin as [-> | Hin]; [congruence | exact Hin].
Qed.

(** X12. [toggle] flips the membership of the symptom it is given and of
    no other symptom, and a selection without duplicates stays without
    duplicates, growing or shrinking by exactly one. *)
Theorem toggle_flips_membership (selected : list string) (symptom : string) :
  (In symptom (SymptomSelector.toggle selected symptom) <-> ~ In symptom selected) /\
  (forall other, other <> symptom ->
     (In other (SymptomSelector.toggle selected symptom) <-> In other selected)) /\
  (NoDup selected ->
   NoDup (SymptomSelector.toggle selected symptom) /\
   length (SymptomSelector.toggle selected symptom)
   = if SymptomSelector.includes selected symptom
     then length selected - 1 else length selected + 1).
Proof.
  unfold SymptomSelector.toggle.
  destruct (SymptomSelector.includes selected symptom) eqn:Hi.
  - apply includes_In in Hi. split; [| split].
    + rewrite In_remove. tauto.
    + intros other Hne. rewrite In_remove. tauto.
    + intros Hnd. split.
      * apply NoDup_ListNoDup, List.NoDup_filter, NoDup_ListNoDup, Hnd.
      * pose proof (Permutation_length (remove_present selected symptom Hnd Hi)) as Hl.
        rewrite length_app in Hl. simpl in Hl. lia.
  - assert (Hn : ~ In symptom selected)
      by (intros H; apply includes_In in H; congruence).
    split; [| split].
    + rewrite in_app_iff. simpl. tauto.
    + intros other Hne. rewrite in_app_iff. simpl. split; [| tauto].
      intros [H | [H | []]]; [exact H | congruence].
    + intros Hnd. split.
      * apply NoDup_app. repeat split; [exact Hnd | | apply NoDup_singleton].
        intros x Hx Hs. apply list_elem_of_singleton in Hs. subst.
        apply Hn, list_elem_of_In, Hx.
      * rewrite length_app. reflexivity.
Qed.

(** X13. Toggling the same symptom twice: from a selection that does not
    hold it, the selection comes back unchanged; from a duplicate-free
    selection that holds it, the symptom moves to the end and the selection
    is otherwise the same. *)
Theorem toggle_twice (selected : list string) (symptom : string) :
  (~ In symptom selected ->
   SymptomSelector.toggle (SymptomSelector.toggle selected symptom) symptom = selected) /\
  (In symptom selected ->
   SymptomSelector.toggle (SymptomSelector.toggle selected symptom) symptom
   = List.filter (fun s => negb (String.eqb s symptom)) selected ++ [symptom] /\
   (NoDup selected ->
    Permutation (SymptomSelector.toggle (SymptomSelector.toggle selected symptom) symptom)
      selected)).
Proof.
  split.
  - intros Hn. unfold SymptomSelector.toggle at 2.
    replace (SymptomSelector.includes selected symptom) with false
      by (symmetry; apply not_true_is_false; rewrite includes_In; exact Hn).
    unfold SymptomSelector.toggle.
    replace (SymptomSelector.includes (selected ++ [symptom]) symptom) with true
      by (symmetry; apply includes_In, in_app_iff; right; now left).
    rewrite List.filter_app, remove_absent by exact Hn.
    simpl. rewrite String.eqb_refl. simpl. apply app_nil_r.
  - intros Hin.
    assert (E : SymptomSelector.toggle (SymptomSelector.toggle selected symptom) symptom
                = List.filter (fun s => negb (String.eqb s symptom)) selected ++ [symptom]).
    { unfold SymptomSelector.toggle at 2.
      replace (SymptomSelector.includes selected symptom) with true
        by (symmetry; apply includes_In; exact Hin).
      unfold SymptomSelector.toggle.
      replace (SymptomSelector.includes _ symptom) with false
        by (symmetry; apply not_true_is_false; rewrite includes_In, In_remove; tauto).
      reflexivity. }
    split; [exact E |]. intros Hnd. rewrite E. now apply remove_present.
Qed.

Lemma toggle_flips_membership_witness :
  NoDup ["itching"; "cough"] /\
  NoDup (SymptomSelector.toggle ["itching"; "cough"] "itching") /\
  length (SymptomSelector.toggle ["itching"; "cough"] "itching") = 1.
Proof.
  assert (Hnd : NoDup ["itching"; "cough"]).
  { constructor.
    - intros H. apply list_elem_of_In in H. destruct H as [H | []]. discriminate H.
    - constructor; [| constructor].
      intros H. apply list_elem_of_In in H. destruct H. }
  split; [exact Hnd |].
  exact (proj2 (proj2 (toggle_flips_membership ["itching"; "cough"] "itching")) Hnd).
Defined.

Lemma toggle_twice_witness :
  ~ In "fever" ["itching"; "cough"] /\
  SymptomSelector.toggle (SymptomSelector.toggle ["itching"; "cough"] "fever") "fever"
  = ["itching"; "cough"].
Proof.
  assert (Hn : ~ In "fever" ["itching"; "cough"])
    by (intros [H | [H | []]]; discriminate H).
  split; [exact Hn |].
  exact (proj1 (toggle_twice ["itching"; "cough"] "fever") Hn).
Defined.











Lemma label_chars (sym : string) :
  list_ascii_of_string (SymptomSelector.label sym)
  = map (fun c => if Ascii.eqb c "_" then " "%char else c) (list_ascii_of_string sym).
Proof.
  induction sym as [| c r IH]; simpl; [reflexivity | now rewrite IH].
Qed.

(** X15. The label of a symptom, [replace(/_/g, ' ')]: it has the length
    of the name, holds no underscore, is the name itself when the name has no
    underscore, and labelling a label changes nothing. *)
Theorem label_has_no_underscore (sym : string) :
  String.length (SymptomSelector.label sym) = String.length sym /\
  ~ In "_"%char (list_ascii_of_string (SymptomSelector.label sym)) /\
  (~ In "_"%char (list_ascii_of_string sym) -> SymptomSelector.label sym = sym) /\
  SymptomSelector.label (SymptomSelector.label sym) = SymptomSelector.label sym.
Proof.
  induction sym as [| c r (Hl & Hn & Hs & Hi)]; simpl.
  - repeat split; tauto.
  - destruct (Ascii.eqb_spec c "_") as [-> | Hc].
    + repeat split.
      * now rewrite Hl.
      * intros [H | H]; [discriminate H | now apply Hn].
      * intros H. exfalso. apply H. now left.
      * simpl. now rewrite Hi.
    + repeat split.
      * now rewrite Hl.
      * intros [H | H]; [congruence | now apply Hn].
      * intros H. rewrite Hs; [reflexivity |]. intros Hin. apply H. now right.
      * simpl. destruct (Ascii.eqb_spec c "_"); [congruence |]. now rewrite Hi.
Qed.

Lemma label_has_no_underscore_witness :
  ~ In "_"%char (list_ascii_of_string "cough") /\
  SymptomSelector.label "cough" = "cough" /\
  SymptomSelector.label "nodal_skin_eruptions" = "nodal skin eruptions".
Proof.
  assert (Hn : ~ In "_"%char (list_ascii_of_string "cough"))
    by (simpl; intros [H | [H | [H | [H | [H | []]]]]]; discriminate H).
  split; [exact Hn |]. split; [| reflexivity].
  exact (proj1 (proj2 (proj2 (label_has_no_underscore "cough"))) Hn).
Defined.

(** * The prediction result *)

(** X16. "Alternative Possibilities" lists at most three rows: the second,
    third and fourth entries of [top_predictions], in that order, and the rank
    printed before a row is its position in [top_predictions], counted from
    one.  The first entry, the predicted disease itself, is never listed. *)
Theorem alternatives_are_ranked_by_position {A : Type} (top_predictions : list A) :
  length (PredictionResult.alternatives top_predictions)
  = Nat.min 3 (length top_predictions - 1) /\
  forall k rank row,
    PredictionResult.alternatives top_predictions !! k = Some (rank, row) <->
    k < 3 /\ rank = k + 2 /\ top_predictions !! (rank - 1) = Some row.
Proof.
  unfold PredictionResult.alternatives, PredictionResult.slice. split.
  - rewrite length_imap, length_take, length_drop. reflexivity.
  - intros k rank row. rewrite list_lookup_imap. simpl.
    destruct (decide (k < 3)) as [Hk | Hk].
    + rewrite lookup_take_lt, lookup_drop by exact Hk.
      replace (1 + k) with (k + 2 - 1) by lia. split.
      * destruct (top_predictions !! (k + 2 - 1)) as [r |] eqn:Hr; simpl; [| discriminate].
        intros H. injection H as <- <-. auto.
      * intros (_ & -> & ->). reflexivity.
    + rewrite lookup_take_ge by lia. simpl. split; [discriminate | tauto].
Qed.

Lemma alternatives_are_ranked_by_position_witness :
  2 < 3 /\
  PredictionResult.alternatives ["Fungal infection"; "Allergy"; "GERD"; "Acne"; "Psoriasis"] !! 2
  = Some (4, "Acne").
Proof.
  split; [lia |].
  apply (proj2 (alternatives_are_ranked_by_position
                  ["Fungal infection"; "Allergy"; "GERD"; "Acne"; "Psoriasis"]) 2 4 "Acne").
  split; [lia |]. split; reflexivity.
Defined.

(** * The application shell *)

Lemma toggle_NoDup (selected : list string) (symptom : string) :
  NoDup selected -> NoDup (SymptomSelector.toggle selected symptom).
Proof.
  intros Hnd. unfold SymptomSelector.toggle.
  destruct (SymptomSelector.includes selected symptom) eqn:Hi.
  - apply NoDup_ListNoDup, List.NoDup_filter, NoDup_ListNoDup, Hnd.
  - apply NoDup_app. repeat split; [exact Hnd | | apply NoDup_singleton].
    intros x Hx Hs. apply list_elem_of_singleton in Hs. subst.
    apply list_elem_of_In, includes_In in Hx. congruence.
Qed.

Lemma toggle_incl (selected : list string) (symptom : string) (l : list string) :
  incl selected l -> In symptom l -> incl (SymptomSelector.toggle selected symptom) l.
Proof.
  intros Hs Hl x Hx. unfold SymptomSelector.toggle in Hx.
  destruct (SymptomSelector.includes selected symptom).
  - apply In_remove in Hx. now apply Hs.
  - apply in_app_iff in Hx as [Hx | [<- | []]]; [now apply Hs | exact Hl].
Qed.

Lemma incl_nil_inv {A : Type} (l : list A) : incl l [] -> l = [].
Proof.
  destruct l as [| x l]; [reflexivity |]. intros H. destruct (H x). now left.
Qed.

Section AppFacts.

Context {Prediction Meta : Type}.

Lemma app_step_invariant (st : App.State Prediction Meta) (e : App.Event Prediction Meta) :
  App.invariant Prediction Meta st ->
  App.invariant Prediction Meta (App.step Prediction Meta st e).
Proof.
  unfold App.invariant. destruct st as [sy se lo re me er tab fp rq pn]. simpl.
  intros (Hnd & Hin & Hrq & Hpn & Hfp).
  destruct e as [syms m | e | sym | | | data | e | t]; simpl.
  - destruct fp; simpl; [| tauto].
    destruct (Hfp eq_refl) as [-> ->]. apply incl_nil_inv in Hin. subst se.
    split; [constructor |]. split; [intros x [] |]. split; [constructor |].
    split; [assumption | discriminate].
  - destruct fp; simpl; [| tauto].
    split; [assumption |]. split; [assumption |]. split; [assumption |].
    split; [assumption | discriminate].
  - unfold App.clickable. simpl. destruct tab; simpl; [| tauto].
    destruct (existsb (String.eqb sym) (sy ++ se)) eqn:Hc; simpl; [| tauto].
    apply existsb_exists in Hc as (x & Hx & He). apply String.eqb_eq in He. subst x.
    assert (Hsy : In sym sy)
      by (apply in_app_iff in Hx as [Hx | Hx]; [exact Hx | now apply Hin]).
    split; [now apply toggle_NoDup |]. split; [now apply toggle_incl |]. tauto.
  - destruct tab; simpl; [| tauto].
    unfold App.canPredict, App.handlePredict. simpl.
    destruct se as [| x se]; simpl; [tauto |].
    destruct lo; simpl; [tauto |].
    split; [assumption |]. split; [assumption |]. split; [| split].
    + apply Forall_app. split; [exact Hrq |]. apply Forall_singleton.
      split; [discriminate |]. split; assumption.
    + now rewrite Hpn.
    + intros Hf. destruct (Hfp Hf) as [-> _]. destruct (Hin x). now left.
  - destruct tab; simpl; [| tauto]. destruct lo; simpl; [tauto |].
    split; [constructor |]. split; [intros x [] |]. tauto.
  - destruct pn as [| pn]; simpl; [tauto |].
    destruct lo; [| discriminate]. injection Hpn as ->. tauto.
  - destruct pn as [| pn]; simpl; [tauto |].
    destruct lo; [| discriminate]. injection Hpn as ->. tauto.
  - tauto.
Qed.

Lemma app_run_invariant (events : list (App.Event Prediction Meta))
    (st : App.State Prediction Meta) :
  App.invariant Prediction Meta st ->
  App.invariant Prediction Meta (App.run Prediction Meta st events).
Proof.
  revert st. induction events as [| e events IH]; intros st H; [exact H |].
  apply IH, app_step_invariant, H.
Qed.

(** X17. In every state the application shell reaches: the selection has
    no duplicates and holds only symptoms the backend listed; every request
    sent to the prediction endpoint carried a non-empty selection without
    duplicates, made of such symptoms; and at most one prediction request is
    pending at a time. *)
Theorem prediction_requests_are_well_formed (events : list (App.Event Prediction Meta)) :
  let st := App.run Prediction Meta (App.initial Prediction Meta) events in
  NoDup (App.selected _ _ st) /\
  incl (App.selected _ _ st) (App.symptoms _ _ st) /\
  Forall (fun req => req <> [] /\ NoDup req /\ incl req (App.symptoms _ _ st))
    (App.predictRequests _ _ st) /\
  App.predictPending _ _ st <= 1.
Proof.
  assert (H : App.invariant Prediction Meta (App.initial Prediction Meta)).
  { unfold App.invariant. simpl.
    split; [constructor |]. split; [intros x [] |]. split; [constructor |]. tauto. }
  apply (app_run_invariant events) in H.
  destruct H as (Hnd & Hin & Hrq & Hpn & _).
  split; [exact Hnd |]. split; [exact Hin |]. split; [exact Hrq |].
  rewrite Hpn. destruct (App.loading _ _ _); lia.
Qed.

(** X18. When the pending prediction request is rejected, the shell shows
    the [error] of the response body if it is a non-empty string and the text
    "Prediction failed. Please try again." otherwise, and clears [loading];
    the selection, the symptom list and the result of an earlier prediction
    are left as they were, so the earlier result stays on the page next to
    the error. *)
Theorem failed_prediction_keeps_selection_and_result
    (st : App.State Prediction Meta) (n : nat) (e : Exn) :
  App.predictPending _ _ st = S n ->
  let st' := App.step Prediction Meta st (App.PredictRejected _ _ e) in
  App.error _ _ st' = Some (Js.or_else (response_data_error e) App.predict_failed_message) /\
  App.loading _ _ st' = false /\
  App.selected _ _ st' = App.selected _ _ st /\
  App.result _ _ st' = App.result _ _ st /\
  App.predictRequests _ _ st' = App.predictRequests _ _ st.
Proof.
  intros Hp. simpl. rewrite Hp. repeat split.
Qed.

End AppFacts.

Lemma failed_prediction_keeps_selection_and_result_witness :
  App.predictPending nat unit
    (App.run nat unit (App.initial nat unit)
       [App.FetchResolved nat unit (Some ["itching"; "cough"]) tt;
        App.ClickSymptom nat unit "cough"; App.ClickPredict nat unit]) = 1 /\
  App.error nat unit
    (App.step nat unit
       (App.run nat unit (App.initial nat unit)
          [App.FetchResolved nat unit (Some ["itching"; "cough"]) tt;
           App.ClickSymptom nat unit "cough"; App.ClickPredict nat unit])
       (App.PredictRejected nat unit (service_error 400 "No valid symptoms")))
  = Some "No valid symptoms".
Proof.
  split; [reflexivity |].
  exact (proj1 (failed_prediction_keeps_selection_and_result
                  (App.run nat unit (App.initial nat unit)
                     [App.FetchResolved nat unit (Some ["itching"; "cough"]) tt;
                      App.ClickSymptom nat unit "cough"; App.ClickPredict nat unit])
                  0 (service_error 400 "No valid symptoms") eq_refl)).
Defined.

(** * The lifestyle wizard *)

Lemma toggled_is_toggle (l : list string) (item : string) :
  Lifestyle.toggled l item = SymptomSelector.toggle l item.
Proof. reflexivity. Qed.

Lemma truthy_string_nonempty (s : string) : Js.truthy_string s = true <-> s <> "".
Proof. destruct s; simpl; split; congruence. Qed.

(** Splits a goal into its conjuncts, and no further. *)
Ltac conjuncts := repeat match goal with |- _ /\ _ => split end.

Section LifestyleFacts.

Context {Number Recommendations : Type} (parseInt parseFloat : string -> Number).

Local Abbreviation State := (Lifestyle.State Number Recommendations).
Local Abbreviation Event := (Lifestyle.Event Recommendations).
Local Abbreviation step := (Lifestyle.step Number Recommendations parseInt parseFloat).
Local Abbreviation run := (Lifestyle.run Number Recommendations parseInt parseFloat).
Local Abbreviation invariant := (Lifestyle.invariant Number Recommendations).

Local Arguments existsb : simpl never.

Lemma lifestyle_step_invariant (st : State) (e : Event) :
  invariant st -> invariant (step st e).
Proof.
  unfold Lifestyle.step. destruct (Lifestyle.enabled _ _ st e) eqn:En; [| auto].
  unfold Lifestyle.invariant.
  destruct st as [[ag ge he we al sy co sv] re lo er cs rq pn]. simpl in *.
  intros (Hcs & Hag & Her & Hpn & Hsn & Hsi & Hcn & Hci & Hrq).
  destruct e as [field value | field level | field item | | | | | recs | err];
    simpl in *.
  - (* text inputs: only on step 1 *)
    apply andb_prop in En as [_ En]. apply Nat.eqb_eq in En. subst cs.
    destruct field; simpl; conjuncts; try assumption; try lia.
  - destruct field; simpl; conjuncts; try assumption; try lia.
  - destruct field; simpl in *.
    + apply andb_prop in En as [_ En].
      apply existsb_exists in En as (x & Hx & He). apply String.eqb_eq in He. subst x.
      rewrite toggled_is_toggle. conjuncts; try assumption; try lia.
      * now apply toggle_NoDup.
      * now apply toggle_incl.
    + apply andb_prop in En as [_ En].
      apply existsb_exists in En as (x & Hx & He). apply String.eqb_eq in He. subst x.
      rewrite toggled_is_toggle. conjuncts; try assumption; try lia.
      * now apply toggle_NoDup.
      * now apply toggle_incl.
  - (* Previous *)
    apply andb_prop in En as [_ En]. apply Nat.ltb_lt in En.
    conjuncts; try assumption; try lia. intros H. apply Hag. lia.
  - (* Next *)
    apply andb_prop in En as [En Hd]. apply andb_prop in En as [_ En].
    apply Nat.ltb_lt in En. apply negb_true_iff in Hd.
    unfold Lifestyle.next_disabled in Hd. simpl in Hd.
    conjuncts; try assumption; try lia. intros _.
    destruct (Nat.eqb_spec cs 1) as [-> | Hne]; [| apply Hag; lia].
    simpl in Hd. apply orb_false_elim in Hd as [Ha Hg].
    apply negb_false_iff, truthy_string_nonempty in Ha, Hg. now split.
  - (* Generate *)
    apply andb_prop in En as [En Hlo]. apply andb_prop in En as [_ En].
    apply negb_true_iff in Hlo. subst lo.
    apply negb_true_iff, Nat.ltb_ge in En.
    destruct (Hag ltac:(lia)) as [Ha Hg].
    unfold Lifestyle.generateRecommendations. simpl.
    apply truthy_string_nonempty in Ha, Hg. rewrite Ha, Hg. simpl.
    apply truthy_string_nonempty in Ha, Hg.
    conjuncts; try assumption; try lia; try discriminate.
    apply Forall_app. split; [exact Hrq |]. now apply Forall_singleton.
  - (* Reset *)
    conjuncts; try assumption; try lia; try discriminate;
      try apply NoDup_nil_2; try (intros H; lia); intros x [].
  - apply Nat.ltb_lt in En. destruct pn as [| pn]; [lia |].
    destruct lo; [| discriminate]. injection Hpn as ->. simpl.
    conjuncts; try assumption; try lia.
  - apply Nat.ltb_lt in En. destruct pn as [| pn]; [lia |].
    destruct lo; [| discriminate]. injection Hpn as ->. simpl.
    conjuncts; try assumption; try lia; try discriminate.
Qed.

(** X19. In every state the wizard reaches: the step is 1, 2 or 3; from
    step 2 on, age and gender are filled in, so the Generate button, which
    only step 3 shows, never runs into the handler's missing-field check and
    its message is never displayed; the ticked symptoms and conditions are
    duplicate-free selections from the two fixed lists; at most one request is
    pending; and every request sent carried a gender. *)
Theorem wizard_never_submits_incomplete_profile (events : list Event) :
  let st := run (Lifestyle.initial Number Recommendations) events in
  let p := Lifestyle.userProfile _ _ st in
  1 <= Lifestyle.currentStep _ _ st <= 3 /\
  (2 <= Lifestyle.currentStep _ _ st ->
   Lifestyle.age p <> "" /\ Lifestyle.gender p <> "") /\
  Lifestyle.error _ _ st <> Some Lifestyle.missing_fields_message /\
  Lifestyle.pending _ _ st <= 1 /\
  NoDup (Lifestyle.symptoms p) /\ incl (Lifestyle.symptoms p) Lifestyle.commonSymptoms /\
  NoDup (Lifestyle.conditions p) /\ incl (Lifestyle.conditions p) Lifestyle.commonConditions /\
  Forall (fun body => Lifestyle.body_gender _ body <> "") (Lifestyle.requests _ _ st).
Proof.
  assert (H : forall st, invariant st -> invariant (run st events)).
  { induction events as [| e events IH]; intros st H; [exact H |].
    apply IH, lifestyle_step_invariant, H. }
  specialize (H (Lifestyle.initial Number Recommendations)).
  destruct H as (Hcs & Hag & Her & Hpn & Hrest).
  - unfold Lifestyle.invariant. simpl.
    conjuncts; try lia; try discriminate; try apply NoDup_nil_2;
      try (intros H; lia); try (intros x []); constructor.
  - simpl. split; [exact Hcs |]. split; [exact Hag |]. split; [exact Her |].
    split; [| exact Hrest]. rewrite Hpn. destruct (Lifestyle.loading _ _ _); lia.
Qed.

(** X20. When the pending request is rejected, the wizard shows "Failed to
    generate recommendations: " followed by the [error] of the response body
    if that is a non-empty string and by the error's own message otherwise;
    [loading] is cleared and the profile and the step are kept. *)
Theorem failed_generation_reports_the_cause (st : State) (n : nat) (err : Exn) :
  Lifestyle.pending _ _ st = S n ->
  let st' := step st (Lifestyle.Rejected _ err) in
  Lifestyle.error _ _ st'
  = Some (String.append "Failed to generate recommendations: "
            (Js.or_else (response_data_error err) (exn_message err))) /\
  Lifestyle.loading _ _ st' = false /\
  Lifestyle.userProfile _ _ st' = Lifestyle.userProfile _ _ st /\
  Lifestyle.currentStep _ _ st' = Lifestyle.currentStep _ _ st /\
  Lifestyle.recommendations _ _ st' = Lifestyle.recommendations _ _ st.
Proof.
  intros Hp. unfold Lifestyle.step. simpl. rewrite Hp. simpl. repeat split.
Qed.

End LifestyleFacts.

Lemma failed_generation_reports_the_cause_witness :
  Lifestyle.pending nat unit generating = 1 /\
  Lifestyle.error nat unit
    (Lifestyle.step nat unit String.length String.length generating
       (Lifestyle.Rejected unit network_error))
  = Some "Failed to generate recommendations: Network Error".
Proof.
  split; [reflexivity |].
  exact (proj1 (failed_generation_reports_the_cause String.length String.length
                  generating 0 network_error eq_refl)).
Defined.

Lemma wizard_never_submits_incomplete_profile_witness :
  2 <= Lifestyle.currentStep nat unit generating /\
  Lifestyle.age (Lifestyle.userProfile nat unit generating) <> "" /\
  Lifestyle.gender (Lifestyle.userProfile nat unit generating) <> "".
Proof.
  assert (Hs : 2 <= Lifestyle.currentStep nat unit generating) by (simpl; lia).
  split; [exact Hs |].
  exact (proj1 (proj2 (wizard_never_submits_incomplete_profile String.length String.length
                         [Lifestyle.ChangeText unit Lifestyle.Age "42";
                          Lifestyle.ChangeText unit Lifestyle.Gender "female";
                          Lifestyle.ClickNext unit; Lifestyle.ClickNext unit;
                          Lifestyle.ClickGenerate unit])) Hs).
Defined.

(** * Retrying and playing *)

Lemma step_rejected (host : Host) (w : World) (n : nat) (err : Exn) :
  pendingPosts w = S n ->
  loading (step host w (PostRejected err)) = false /\
  audioFile (step host w (PostRejected err)) = audioFile w /\
  imageFile (step host w (PostRejected err)) = imageFile w /\
  requests (step host w (PostRejected err)) = requests w /\
  pendingPosts (step host w (PostRejected err)) = n.
Proof.
  intros Hp. unfold step. rewrite Hp. run_handler. repeat split.
Qed.

(** X21. Retrying after a failure.  When the pending request has been
    rejected and a file is staged, the next click on the consult button sends
    one more request, made of exactly the files staged before the failure,
    and that request is the only one pending. *)
Theorem retry_after_failure_resends_inputs
    (host : Host) (w : World) (n : nat) (err : Exn) :
  pendingPosts w = S n ->
  Js.truthy_ref (audioFile w) || Js.truthy_ref (imageFile w) = true ->
  let w' := run host w [PostRejected err; ClickConsult] in
  requests w' = requests w ++ [staged_form w] /\
  pendingPosts w' = S n /\
  loading w' = true.
Proof.
  intros Hp Hs.
  destruct (step_rejected host w n err Hp) as (Hl & Ha & Hi & Hr & Hn).
  assert (Hd : consult_disabled (step host w (PostRejected err)) = false).
  { unfold consult_disabled. rewrite Hl, Ha, Hi.
    destruct (audioFile w), (imageFile w); simpl in *; congruence. }
  destruct (click_consult_enabled host _ Hd) as (Hl' & Hr' & Hp').
  change (run host w [PostRejected err; ClickConsult])
    with (step host (step host w (PostRejected err)) ClickConsult).
  split; [| split].
  - rewrite Hr', Hr. unfold staged_form. now rewrite Ha, Hi.
  - now rewrite Hp', Hn.
  - exact Hl'.
Qed.

Lemma retry_after_failure_resends_inputs_witness :
  pendingPosts submitting_world = 1 /\
  Js.truthy_ref (audioFile submitting_world) || Js.truthy_ref (imageFile submitting_world)
  = true /\
  requests (run standard_host submitting_world
              [PostRejected (service_error 500 "model unavailable"); ClickConsult])
  = [[("image", rash_png)]; [("image", rash_png)]].
Proof.
  split; [reflexivity |]. split; [reflexivity |].
  exact (proj1 (retry_after_failure_resends_inputs standard_host submitting_world 0
                  (service_error 500 "model unavailable") eq_refl eq_refl)).
Defined.

(** X22. The audio element sits inside the results block, which is
    rendered only for a non-empty transcription or analysis.  So after a
    reply with decodable response audio the player is offered exactly when the
    reply also carried such a text: a reply with audio alone is decoded and
    referenced, but no playback control is shown for it. *)
Theorem playback_needs_a_text_result
    (host : Host) (w : World) (n : nat) (t a : option string) (p bin : string) :
  file_api host ->
  pendingPosts w = S n ->
  p <> "" ->
  Base64.atob p = Some bin ->
  let w' := step host w (PostResolved (mkReply t a (Some p))) in
  responseAudio w' = Some (length (objectURLs w)) /\
  playback_offered w' = Js.truthy t || Js.truthy a.
Proof.
  intros Hapi Hp Hne Hdec.
  destruct (step_decodable_reply host w n t a p bin Hapi Hp Hne Hdec) as (_ & _ & Hr & _).
  split; [exact Hr |].
  unfold playback_offered, results_shown. rewrite Hr. simpl. rewrite andb_true_r.
  unfold step. rewrite Hp. destruct p as [| c p]; [congruence |].
  run_handler. rewrite Hdec. simpl. rewrite Hapi. reflexivity.
Qed.

Lemma playback_needs_a_text_result_witness :
  file_api standard_host /\
  pendingPosts submitting_world = 1 /\
  "QUJD" <> "" /\
  Base64.atob "QUJD" = Some "ABC" /\
  responseAudio (step standard_host submitting_world
                   (PostResolved (mkReply None None (Some "QUJD")))) = Some 0 /\
  playback_offered (step standard_host submitting_world
                      (PostResolved (mkReply None None (Some "QUJD")))) = false.
Proof.
  assert (Hapi : file_api standard_host) by (intros parts; reflexivity).
  assert (Hne : "QUJD" <> "") by discriminate.
  split; [exact Hapi |]. split; [reflexivity |]. split; [exact Hne |].
  split; [reflexivity |].
  exact (playback_needs_a_text_result standard_host submitting_world 0
           None None "QUJD" "ABC" Hapi eq_refl Hne eq_refl).
Defined.

(** * When the backend cannot be reached *)

Section AppOffline.

Context {Prediction Meta : Type}.

Lemma app_offline_step (st : App.State Prediction Meta) (e : App.Event Prediction Meta) :
  App.fetchPending _ _ st = false /\ App.symptoms _ _ st = [] /\
  App.selected _ _ st = [] /\ App.predictRequests _ _ st = [] ->
  App.fetchPending _ _ (App.step _ _ st e) = false /\
  App.symptoms _ _ (App.step _ _ st e) = [] /\
  App.selected _ _ (App.step _ _ st e) = [] /\
  App.predictRequests _ _ (App.step _ _ st e) = [].
Proof.
  destruct st as [sy se lo re me er tab fp rq pn]. simpl.
  intros (-> & -> & -> & ->).
  destruct e as [syms m | e | sym | | | data | e | t]; simpl; try tauto.
  - unfold App.clickable. simpl. destruct tab; simpl; tauto.
  - destruct tab; simpl; tauto.
  - destruct tab; simpl; [destruct lo |]; simpl; tauto.
  - destruct pn; simpl; tauto.
  - destruct pn; simpl; tauto.
Qed.

(** X23. When the initial load of symptoms and metadata fails, the shell
    shows "Failed to load initial data. Ensure backend is running." and stays
    empty whatever happens next: the symptom list and the selection remain
    empty and no prediction request is ever sent. *)
Theorem failed_initial_load_disables_prediction
    (e : Exn) (events : list (App.Event Prediction Meta)) :
  App.error _ _ (App.step _ _ (App.initial Prediction Meta) (App.FetchRejected _ _ e))
  = Some App.fetch_failed_message /\
  let st := App.run _ _ (App.initial Prediction Meta) (App.FetchRejected _ _ e :: events) in
  App.symptoms _ _ st = [] /\
  App.selected _ _ st = [] /\
  App.predictRequests _ _ st = [].
Proof.
  split; [reflexivity |].
  assert (H : forall st : App.State Prediction Meta,
             App.fetchPending _ _ st = false /\ App.symptoms _ _ st = [] /\
             App.selected _ _ st = [] /\ App.predictRequests _ _ st = [] ->
             App.symptoms _ _ (App.run _ _ st events) = [] /\
             App.selected _ _ (App.run _ _ st events) = [] /\
             App.predictRequests _ _ (App.run _ _ st events) = []).
  { induction events as [| e0 events IH]; intros st Hst; [tauto |].
    apply IH, app_offline_step, Hst. }
  apply H. simpl. tauto.
Qed.

End AppOffline.
